(** * blackbox: combination generation and the streaming exploration pipeline

    A shallow embedding of [cmd/blackbox/main.go].  Go slices of strings are
    lists of strings, [map[string]string] is a [gmap string string], the
    [int] row counter is a 64-bit integer with its wrap-around written out.
    Loops of the shape [for _, x := range xs { result = append(result, ...) }]
    are left folds that append to the accumulator, exactly as the source
    builds its slices. *)

From Stdlib Require Import ZArith Lia String Ascii DecimalString.
From Stdlib Require DecimalZ DecimalPos.
From stdpp Require Import base tactics option list gmap strings sorting.

(** ** Outcomes of Go code

    A Go function either returns, panics (index out of range) or never
    returns (it blocks on a child process that does not exit). *)

Inductive Res (A : Type) : Type :=
  | Ret (a : A)
  | Panic
  | Blocked.
Arguments Ret {A} a.
Arguments Panic {A}.
Arguments Blocked {A}.

Definition error := string.

(** The verb [%d] of [fmt]: a signed decimal numeral. *)
Definition decimal (i : Z) : string := NilZero.string_of_int (Z.to_int i).

(** Go's [int] on the 64-bit platforms the program is built for: the
    result of an arithmetic operation wraps around into
    [-2^63 .. 2^63 - 1]. *)
Definition int_wrap (z : Z) : Z := (z + 2 ^ 63) `mod` 2 ^ 64 - 2 ^ 63.

(** ** CombinationGenerator: [GetInputSets] *)

Module Comb.

(** [for _, item := range exampleSets[0] { result = append(result, []string{item}) }] *)
Definition append_singletons (result : list (list string)) (head : list string)
  : list (list string) :=
  foldl (λ result item, result ++ [[item]]) result head.

(** The nested loops over [head] and [GetInputSets(tail)]; [sub] is the
    value of the recursive call, which the source re-evaluates for every
    [item] (it is a pure function of [tail]). *)
Definition append_prefixed (result : list (list string)) (head : list string)
    (sub : list (list string)) : list (list string) :=
  foldl (λ result item,
           foldl (λ result subitem, result ++ [item :: subitem]) result sub)
        result head.

Fixpoint GetInputSets (exampleSets : list (list string)) : list (list string) :=
  let result := [] in
  match exampleSets with
  | [] => result
  | head :: tail =>
      let result :=
        if decide (length exampleSets = 1)
        then append_singletons result head
        else result in
      append_prefixed result head (GetInputSets tail)
  end.

(** The product of the sizes [s1 * ... * sn]; the empty product is [1]. *)
Definition size_product (exampleSets : list (list string)) : nat :=
  foldr Nat.mul 1 (length <$> exampleSets).

(** The mathematical cartesian product, as the property of the
    specification has it: a tuple belongs to it when it has one component
    per set, the i-th component taken from the i-th set. *)
Definition in_product (t : list string) (exampleSets : list (list string)) : Prop :=
  Forall2 (λ v s, v ∈ s) t exampleSets.

(** Row-major enumeration of the cartesian product, first variable
    slowest; the product of no sets is the one empty tuple. *)
Fixpoint row_major (exampleSets : list (list string)) : list (list string) :=
  match exampleSets with
  | [] => [[]]
  | head :: tail => flat_map (λ v, map (cons v) (row_major tail)) head
  end.

(** *** The loops as list expressions *)

Lemma append_singletons_eq result head :
  append_singletons result head = result ++ map (λ item, [item]) head.
Proof.
  unfold append_singletons. revert result.
  induction head as [|item head IH]; intros result; simpl.
  - by rewrite app_nil_r.
  - rewrite IH. by rewrite <- app_assoc.
Qed.

Lemma append_row_eq (item : string) result sub :
  foldl (λ result subitem, result ++ [item :: subitem]) result sub
  = result ++ map (cons item) sub.
Proof.
  revert result. induction sub as [|t sub IH]; intros result; simpl.
  - by rewrite app_nil_r.
  - rewrite IH. by rewrite <- app_assoc.
Qed.

Lemma append_prefixed_eq result head sub :
  append_prefixed result head sub
  = result ++ flat_map (λ item, map (cons item) sub) head.
Proof.
  unfold append_prefixed. revert result.
  induction head as [|item head IH]; intros result; simpl.
  - by rewrite app_nil_r.
  - rewrite IH, append_row_eq. by rewrite <- app_assoc.
Qed.

Lemma flat_map_nil_sub (head : list string) :
  flat_map (λ item : string, map (cons item) ([] : list (list string))) head = [].
Proof. induction head; simpl; auto. Qed.

Lemma flat_map_unit_sub (head : list string) :
  flat_map (λ item : string, map (cons item) [[]]) head = map (λ item, [item]) head.
Proof. induction head; simpl; f_equal; auto. Qed.

(** One set: the single-set branch fills [result], and the general loops
    that follow add nothing because [GetInputSets(tail)] is empty. *)
Lemma GetInputSets_single head :
  GetInputSets [head] = map (λ item, [item]) head.
Proof.
  simpl. rewrite append_prefixed_eq, append_singletons_eq, flat_map_nil_sub.
  by rewrite app_nil_r.
Qed.

(** Two sets or more: only the general loops contribute. *)
Lemma GetInputSets_step head next rest :
  GetInputSets (head :: next :: rest)
  = flat_map (λ item, map (cons item) (GetInputSets (next :: rest))) head.
Proof.
  change (GetInputSets (head :: next :: rest))
    with (append_prefixed [] head (GetInputSets (next :: rest))).
  by rewrite append_prefixed_eq.
Qed.

Lemma GetInputSets_row_major exampleSets :
  exampleSets ≠ [] → GetInputSets exampleSets = row_major exampleSets.
Proof.
  induction exampleSets as [|head tail IH]; [done|]. intros _.
  destruct tail as [|next rest].
  - rewrite GetInputSets_single. simpl. by rewrite flat_map_unit_sub.
  - rewrite GetInputSets_step. rewrite IH by done. reflexivity.
Qed.

(** *** The row-major enumeration is the cartesian product *)

Lemma row_major_length exampleSets :
  length (row_major exampleSets) = size_product exampleSets.
Proof.
  induction exampleSets as [|head tail IH]; [done|].
  change (size_product (head :: tail)) with (length head * size_product tail).
  rewrite <- IH. clear IH. simpl.
  induction head as [|v head IHh]; simpl; [done|].
  by rewrite length_app, length_map, IHh.
Qed.

Lemma row_major_elem_of t exampleSets :
  t ∈ row_major exampleSets ↔ in_product t exampleSets.
Proof.
  unfold in_product. revert t.
  induction exampleSets as [|head tail IH]; intros t; simpl.
  - rewrite list_elem_of_singleton. split.
    + intros ->. constructor.
    + by inversion 1.
  - rewrite list_elem_of_In, in_flat_map. split.
    + intros (v & Hv & Ht). apply in_map_iff in Ht as (t' & <- & Ht').
      constructor.
      * by apply list_elem_of_In.
      * by apply IH, list_elem_of_In.
    + inversion 1 as [|v s t' sets Hv Ht']; subst.
      exists v. split; [by apply list_elem_of_In|].
      apply in_map_iff. exists t'. split; [done|].
      by apply list_elem_of_In, IH.
Qed.

Lemma in_product_length t exampleSets :
  in_product t exampleSets → length t = length exampleSets.
Proof. apply Forall2_length. Qed.

Lemma NoDup_map_cons (v : string) (ts : list (list string)) :
  NoDup ts → NoDup (map (cons v) ts).
Proof.
  induction 1 as [|t ts Hnotin Hnd IH]; simpl; constructor; [|done].
  rewrite list_elem_of_In, in_map_iff. intros (t' & [= <-] & Hin).
  by apply Hnotin, list_elem_of_In.
Qed.

Lemma row_major_NoDup exampleSets :
  Forall NoDup exampleSets → NoDup (row_major exampleSets).
Proof.
  induction 1 as [|head tail Hhead Htail IH]; simpl.
  - apply NoDup_singleton.
  - induction Hhead as [|v head Hv Hhead IHh]; simpl; [constructor|].
    apply NoDup_app. split_and!.
    + by apply NoDup_map_cons.
    + intros t Ht Ht'. apply list_elem_of_In, in_map_iff in Ht as (t1 & <- & _).
      apply list_elem_of_In, in_flat_map in Ht' as (w & Hw & Ht').
      apply in_map_iff in Ht' as (t2 & [= -> _] & _).
      by apply Hv, list_elem_of_In.
    + done.
Qed.

(** *** Claims about [GetInputSets] *)

(** C1, as stated, fails at two inputs.  For no set at all the source
    returns no tuple, while the empty product of sizes is 1 and the empty
    tuple is the one member of the product of no sets.  For a set that
    repeats a value (the cell [a,a] parses to it) the output repeats a
    tuple. *)
Lemma GetInputSets_product_counterexample :
  (Forall (λ s : list string, s ≠ []) []
   ∧ length (GetInputSets []) = 0 ∧ size_product [] = 1
   ∧ in_product [] [] ∧ [] ∉ GetInputSets [])
  ∧ (Forall (λ s : list string, s ≠ []) [["a"; "a"]]
     ∧ GetInputSets [["a"; "a"]] = [["a"]; ["a"]]
     ∧ ¬ NoDup (GetInputSets [["a"; "a"]])).
Proof.
  split.
  - split_and!; [constructor|done|done|constructor|].
    simpl. apply not_elem_of_nil.
  - split_and!.
    + by repeat constructor.
    + reflexivity.
    + rewrite GetInputSets_single. simpl. inversion 1 as [|?? Hnotin _]; subst.
      apply Hnotin. by left.
Qed.

(** C1 (amended): for at least one example set, [GetInputSets] returns
    [s1 * ... * sn] tuples, each of length [n]; a tuple is returned exactly
    when it belongs to the cartesian product of the sets, and no tuple is
    returned twice when no set repeats a value. *)
Theorem GetInputSets_product exampleSets :
  exampleSets ≠ [] →
  length (GetInputSets exampleSets) = size_product exampleSets
  ∧ Forall (λ t, length t = length exampleSets) (GetInputSets exampleSets)
  ∧ (∀ t, t ∈ GetInputSets exampleSets ↔ in_product t exampleSets)
  ∧ (Forall NoDup exampleSets → NoDup (GetInputSets exampleSets)).
Proof.
  intros Hne. rewrite (GetInputSets_row_major _ Hne). split_and!.
  - apply row_major_length.
  - apply Forall_forall. intros t Ht.
    by apply in_product_length, row_major_elem_of.
  - intros t. apply row_major_elem_of.
  - apply row_major_NoDup.
Qed.

Lemma GetInputSets_product_witness :
  let exampleSets := [["1"; "2"]; ["a"; "b"; "c"]] in
  exampleSets ≠ []
  ∧ length (GetInputSets exampleSets) = 6
  ∧ Forall (λ t, length t = 2) (GetInputSets exampleSets)
  ∧ (∀ t, t ∈ GetInputSets exampleSets ↔ in_product t exampleSets)
  ∧ (Forall NoDup exampleSets → NoDup (GetInputSets exampleSets)).
Proof.
  split; [discriminate|].
  apply (GetInputSets_product [["1"; "2"]; ["a"; "b"; "c"]]). discriminate.
Defined.

(** C2: no example set gives no tuple; one example set of [k] values gives
    [k] singleton tuples, the i-th holding the i-th value, each value
    counted once although the single-set branch falls through into the
    general loops. *)
Theorem GetInputSets_degenerate :
  GetInputSets [] = []
  ∧ ∀ head : list string,
      GetInputSets [head] = map (λ v, [v]) head
      ∧ length (GetInputSets [head]) = length head
      ∧ ∀ i, GetInputSets [head] !! i = (λ v, [v]) <$> head !! i.
Proof.
  split; [reflexivity|]. intros head. rewrite GetInputSets_single. split_and!.
  - reflexivity.
  - apply length_map.
  - intros i. apply (list_lookup_fmap (λ v : string, [v])).
Qed.

(** C3: row-major order, first variable slowest.  The tuples of
    [head :: tail] are, for each value [v] of [head] in order, the tuples
    of the product of [tail] in order, each prefixed by [v]; the product of
    a non-empty [tail] is [GetInputSets tail] itself. *)
Theorem GetInputSets_row_major_order :
  (∀ head tail,
     GetInputSets (head :: tail)
     = flat_map (λ v, map (cons v) (row_major tail)) head)
  ∧ (∀ head tail, tail ≠ [] →
     GetInputSets (head :: tail)
     = flat_map (λ v, map (cons v) (GetInputSets tail)) head)
  ∧ GetInputSets [["1"; "2"]; ["a"; "b"]]
    = [["1"; "a"]; ["1"; "b"]; ["2"; "a"]; ["2"; "b"]].
Proof.
  split_and!.
  - intros head tail. by rewrite GetInputSets_row_major.
  - intros head [|next rest] Hne; [done|]. apply GetInputSets_step.
  - reflexivity.
Qed.

Lemma GetInputSets_row_major_order_witness :
  [["a"; "b"]] ≠ []
  ∧ GetInputSets [["1"; "2"]; ["a"; "b"]]
    = flat_map (λ v, map (cons v) (GetInputSets [["a"; "b"]])) ["1"; "2"].
Proof.
  split; [discriminate|].
  apply (proj1 (proj2 GetInputSets_row_major_order)). discriminate.
Defined.

End Comb.

(** ** ExampleSetParser: [ExtractExamples] and [GetVarsExamplesSets] *)

Module Parser.

(** The two functions of Go's [strings] package that the parser calls, on
    byte strings: [strings.Trim(s, cutset)] drops the leading and trailing
    bytes that belong to [cutset] (the cutsets used are ASCII), and
    [strings.Split(s, ",")] cuts [s] at every separator, so it returns one
    field more than there are separators. *)
Fixpoint TrimLeft (cutset : list ascii) (s : string) : string :=
  match s with
  | EmptyString => EmptyString
  | String c s' => if bool_decide (c ∈ cutset) then TrimLeft cutset s' else s
  end.

Definition TrimRight (cutset : list ascii) (s : string) : string :=
  String.rev (TrimLeft cutset (String.rev s)).

Definition Trim (s : string) (cutset : list ascii) : string :=
  TrimRight cutset (TrimLeft cutset s).

Fixpoint Split (s : string) (sep : ascii) : list string :=
  match s with
  | EmptyString => [EmptyString]
  | String c s' =>
      if bool_decide (c = sep) then EmptyString :: Split s' sep
      else match Split s' sep with
           | [] => [String c EmptyString]
           | field :: fields => String c field :: fields
           end
  end.

(** The cutsets [" \t"] and ["\t \n"]. *)
Definition space_tab : list ascii := [" "; "009"]%char.
Definition tab_space_newline : list ascii := ["009"; " "; "010"]%char.

Definition ExtractExamples (examplesCell : string) : list string :=
  foldl (λ examples example,
           let trimmed := Trim example space_tab in
           if decide (trimmed ≠ "") then examples ++ [trimmed] else examples)
        [] (Split examplesCell ",").

(** The state of the loop of [GetVarsExamplesSets] before row [i]. *)
Fixpoint GetVarsExamplesSets_from (i : nat) (setupRows : list (list string))
    (vars : list string) (examplesSets : list (list string))
  : Res (list string * list (list string) * option error) :=
  match setupRows with
  | [] => Ret (vars, examplesSets, None)
  | setupRow :: setupRows =>
      match setupRow !! 0 with
      | None => Panic
      | Some varCell =>
          match setupRow !! 1 with
          | None => Panic
          | Some examplesCell =>
              let varName := Trim varCell tab_space_newline in
              if decide (varName = "") then
                Ret (vars, examplesSets,
                     Some ("Could not extract var name from row "
                           +:+ decimal (Z.of_nat i)))
              else
                let examples := ExtractExamples examplesCell in
                if decide (length examples = 0) then
                  Ret (vars, examplesSets,
                       Some ("Could not extract examples from row "
                             +:+ decimal (Z.of_nat i)))
                else
                  GetVarsExamplesSets_from (S i) setupRows
                    (vars ++ [varName]) (examplesSets ++ [examples])
          end
      end
  end.

Definition GetVarsExamplesSets (setupRows : list (list string))
  : Res (list string * list (list string) * option error) :=
  GetVarsExamplesSets_from 0 setupRows [] [].

(** A row that the loop passes: two cells at least, a name and an example
    left after trimming. *)
Definition passes (setupRow : list string) : Prop :=
  ∃ varCell examplesCell,
    setupRow !! 0 = Some varCell ∧ setupRow !! 1 = Some examplesCell
    ∧ Trim varCell tab_space_newline ≠ ""
    ∧ ExtractExamples examplesCell ≠ [].

Definition returns {A} (r : Res A) : Prop := ∃ a, r = Ret a.

Example ExtractExamples_cell :
  ExtractExamples (" 1, 2 ,," +:+ String "009"%char "3 ") = ["1"; "2"; "3"].
Proof. reflexivity. Qed.

Example GetVarsExamplesSets_error_first :
  GetVarsExamplesSets [[" "; "1,2"]; ["y"]]
  = Ret ([], [], Some "Could not extract var name from row 0").
Proof. reflexivity. Qed.

Example GetVarsExamplesSets_no_examples :
  GetVarsExamplesSets [["x"; "1"]; ["y"; " , "]]
  = Ret (["x"], [["1"]], Some "Could not extract examples from row 1").
Proof. reflexivity. Qed.

Example GetVarsExamplesSets_rows :
  GetVarsExamplesSets [["x"; "1,2"]; [" y "; "a, b"; "ignored"]]
  = Ret (["x"; "y"], [["1"; "2"]; ["a"; "b"]], None).
Proof. reflexivity. Qed.

(** *** Index safety of [GetVarsExamplesSets] *)

Lemma short_row_panics i setupRow setupRows vars examplesSets :
  length setupRow < 2 →
  GetVarsExamplesSets_from i (setupRow :: setupRows) vars examplesSets = Panic.
Proof.
  intros Hlen. simpl.
  destruct setupRow as [|varCell [|examplesCell cells]]; simpl in *;
    [done|done|lia].
Qed.

Lemma wide_rows_return setupRows : ∀ i vars examplesSets,
  Forall (λ setupRow, 2 ≤ length setupRow) setupRows →
  returns (GetVarsExamplesSets_from i setupRows vars examplesSets).
Proof.
  induction setupRows as [|setupRow setupRows IH];
    intros i vars examplesSets Hwide; simpl.
  - by eexists.
  - apply Forall_cons in Hwide as [Hrow Hwide].
    destruct setupRow as [|varCell [|examplesCell cells]]; simpl in *;
      [lia|lia|].
    repeat case_decide; try by eexists.
    by apply IH.
Qed.

Lemma passing_rows_continue passed : ∀ i setupRows vars examplesSets,
  Forall passes passed →
  ∃ vars' examplesSets',
    GetVarsExamplesSets_from i (passed ++ setupRows) vars examplesSets
    = GetVarsExamplesSets_from (i + length passed) setupRows vars' examplesSets'.
Proof.
  induction passed as [|setupRow passed IH];
    intros i setupRows vars examplesSets Hpass; simpl.
  - exists vars, examplesSets. by rewrite Nat.add_0_r.
  - apply Forall_cons in Hpass as [Hrow Hpass].
    destruct Hrow as (varCell & examplesCell & -> & -> & Hname & Hexamples).
    rewrite decide_False by done.
    rewrite decide_False by (by destruct (ExtractExamples examplesCell)).
    destruct (IH (S i) setupRows
                (vars ++ [Trim varCell tab_space_newline])
                (examplesSets ++ [ExtractExamples examplesCell]) Hpass)
      as (vars' & examplesSets' & ->).
    exists vars', examplesSets'. f_equal. lia.
Qed.

(** C10: some input makes [GetVarsExamplesSets] panic instead of returning
    a configuration error: a row of fewer than two cells, reached after
    rows that the loop passes, is indexed out of bounds, whatever follows
    it.  When every row has two cells at least the function returns. *)
Theorem GetVarsExamplesSets_short_row :
  GetVarsExamplesSets [["x"]] = Panic
  ∧ (∀ passed setupRow setupRows,
       Forall passes passed → length setupRow < 2 →
       GetVarsExamplesSets (passed ++ setupRow :: setupRows) = Panic)
  ∧ (∀ setupRows,
       Forall (λ setupRow, 2 ≤ length setupRow) setupRows →
       returns (GetVarsExamplesSets setupRows)).
Proof.
  split_and!.
  - reflexivity.
  - intros passed setupRow setupRows Hpass Hlen. unfold GetVarsExamplesSets.
    destruct (passing_rows_continue passed 0 (setupRow :: setupRows) [] [] Hpass)
      as (vars' & examplesSets' & ->).
    by apply short_row_panics.
  - intros setupRows Hwide. by apply wide_rows_return.
Qed.

Lemma GetVarsExamplesSets_short_row_witness :
  (Forall passes [["x"; "1,2"]] ∧ length ([] : list string) < 2
   ∧ GetVarsExamplesSets ([["x"; "1,2"]] ++ [] :: [["y"; "3"]]) = Panic)
  ∧ (Forall (λ setupRow : list string, 2 ≤ length setupRow)
       [["x"; "1,2"]; ["y"; "3"]]
     ∧ returns (GetVarsExamplesSets [["x"; "1,2"]; ["y"; "3"]])).
Proof.
  assert (Hpass : Forall passes [["x"; "1,2"]]).
  { repeat constructor. exists "x", "1,2". by split_and!. }
  assert (Hwide : Forall (λ setupRow : list string, 2 ≤ length setupRow)
                    [["x"; "1,2"]; ["y"; "3"]]).
  { repeat constructor. }
  destruct GetVarsExamplesSets_short_row as (_ & Hpanic & Hreturn).
  split.
  - split_and!; [done|simpl; lia|]. apply Hpanic; [done|simpl; lia].
  - split; [done|]. by apply Hreturn.
Defined.

End Parser.

(** ** ResultSink: [RecordResults] *)

Module Sink.

(** What one run of [RecordResults] did: the rows written, each with the
    address it was written at, in the order of the calls; the rows left
    on the channel; the value returned. *)
Record SinkRun := {
  written : list (string * list string);
  unread : list (list string);
  result : option error;
}.

Section RecordResults.

(** [srv.Spreadsheets.Values.Update(spreadsheetID, address, &vr)
    .ValueInputOption("USER_ENTERED").Do()]: whether the [n]-th call of the
    run (counted from 0) fails, which the service decides. *)
Variable Update : nat → string → string → list string → option error.

Variables spreadsheetID resultSheetName : string.

(** [fmt.Sprintf("%s!A%d", resultSheetName, currentLine)] *)
Definition getAddress (currentLine : Z) : string :=
  resultSheetName +:+ "!A" +:+ decimal currentLine.

(** [for _, input := range resultLine { resultRow = append(resultRow, input) }] *)
Definition resultRow_of (resultLine : list string) : list string :=
  foldl (λ resultRow input, resultRow ++ [input]) [] resultLine.

(** The loop [for resultLine := range resultChannel], entered for the
    [n]-th time with the rows that the channel still delivers before it is
    closed. *)
Fixpoint RecordResults_from (currentLine : Z) (n : nat)
    (resultChannel : list (list string)) : SinkRun :=
  match resultChannel with
  | [] => {| written := []; unread := []; result := None |}
  | resultLine :: resultChannel =>
      let resultRow := resultRow_of resultLine in
      match Update n spreadsheetID (getAddress currentLine) resultRow with
      | Some err =>
          {| written := []; unread := resultChannel; result := Some err |}
      | None =>
          let run :=
            RecordResults_from (int_wrap (currentLine + 1)) (S n) resultChannel in
          {| written := (getAddress currentLine, resultRow) :: written run;
             unread := unread run;
             result := result run |}
      end
  end.

Definition RecordResults (resultChannel : list (list string)) : SinkRun :=
  let currentLine := 1%Z in
  RecordResults_from currentLine 0 resultChannel.

(** The row received [n]-th (from 0) with destination position [n + 1]. *)
Definition placed (n : nat) (resultLine : list string) : string * list string :=
  (getAddress (Z.of_nat (n + 1)), resultLine).

Lemma resultRow_of_eq resultLine : resultRow_of resultLine = resultLine.
Proof.
  unfold resultRow_of.
  enough (∀ resultRow,
            foldl (λ resultRow input, resultRow ++ [input]) resultRow resultLine
            = resultRow ++ resultLine) as H by apply H.
  induction resultLine as [|input resultLine IH]; intros resultRow; simpl.
  - by rewrite app_nil_r.
  - rewrite IH. by rewrite <- app_assoc.
Qed.

Lemma int_wrap_small z : (- 2 ^ 63 ≤ z < 2 ^ 63)%Z → int_wrap z = z.
Proof. intros Hz. unfold int_wrap. rewrite Z.mod_small; lia. Qed.

(** The loop invariant: entered for the [k]-th time the counter is
    [k + 1]; the rows written from there on are a prefix of the rows
    delivered, each at its own position. *)
Lemma RecordResults_from_spec resultChannel : ∀ k currentLine,
  (resultChannel ≠ [] → currentLine = Z.of_nat (k + 1)) →
  (Z.of_nat (k + length resultChannel) < 2 ^ 63)%Z →
  let run := RecordResults_from currentLine k resultChannel in
  ∃ n,
    written run = imap (λ i, placed (k + i)) (take n resultChannel)
    ∧ (∀ i resultLine, i < n → resultChannel !! i = Some resultLine →
         Update (k + i) spreadsheetID (getAddress (Z.of_nat (k + i + 1)))
           resultLine = None)
    ∧ match result run with
      | None => n = length resultChannel ∧ unread run = []
      | Some err =>
          ∃ resultLine,
            resultChannel !! n = Some resultLine
            ∧ Update (k + n) spreadsheetID (getAddress (Z.of_nat (k + n + 1)))
                resultLine = Some err
            ∧ unread run = drop (S n) resultChannel
      end.
Proof.
  induction resultChannel as [|resultLine resultChannel IH];
    intros k currentLine Hline Hbound; simpl.
  - exists 0. split_and!; [done|intros; lia|done|done].
  - rewrite resultRow_of_eq. rewrite (Hline ltac:(done)).
    destruct (Update k spreadsheetID (getAddress (Z.of_nat (k + 1))) resultLine)
      as [err|] eqn:Hupdate; simpl.
    + exists 0. split_and!; [done|intros; lia|].
      exists resultLine. rewrite !Nat.add_0_r. by rewrite drop_0.
    + simpl in Hbound.
      destruct (IH (S k) (int_wrap (Z.of_nat (k + 1) + 1))) as (n & Hw & Hok & Hres).
      { intros Hne. rewrite int_wrap_small; [lia|].
        destruct resultChannel; [done|]. simpl in Hbound. lia. }
      { lia. }
      exists (S n). split_and!.
      * simpl. rewrite Hw. rewrite Nat.add_0_r. f_equal.
        apply imap_ext. intros i row _. simpl. f_equal. lia.
      * intros [|i] row Hi Hrow; simpl in Hrow.
        -- injection Hrow as <-. by rewrite !Nat.add_0_r.
        -- replace (k + S i) with (S k + i) by lia. apply Hok; [lia|done].
      * destruct (result _) as [err|].
        -- destruct Hres as (row & Hrow & Herr & Hunread).
           exists row. replace (k + S n) with (S k + n) by lia. by split_and!.
        -- destruct Hres as [-> Hunread]. by split.
Qed.

End RecordResults.

(** The destination as the specification has it, apart from the code:
    [address] is row position [N] of the sheet, counted from 1, when it is
    the name of the sheet, [!A] and a numeral that the decimal reader of
    the standard library reads as the number [N], in its canonical
    spelling (no sign, no leading zero). *)
Definition row_address (resultSheetName : string) (N : nat) (address : string)
  : Prop :=
  ∃ numeral,
    address = resultSheetName +:+ "!A" +:+ numeral
    ∧ NilZero.int_of_string numeral = Some (Z.to_int (Z.of_nat N))
    ∧ Z.of_int <$> NilZero.int_of_string numeral = Some (Z.of_nat N).

Lemma decimal_read z :
  NilZero.int_of_string (decimal z) = Some (Z.to_int z).
Proof.
  unfold decimal.
  destruct z as [|p|p]; [reflexivity| |]; apply NilZero.isi; simpl;
    intros [= H]; by apply DecimalPos.Unsigned.to_uint_nonnil in H.
Qed.

Lemma getAddress_row_address resultSheetName N :
  row_address resultSheetName N (getAddress resultSheetName (Z.of_nat N)).
Proof.
  exists (decimal (Z.of_nat N)). split_and!.
  - reflexivity.
  - apply decimal_read.
  - rewrite decimal_read. simpl. by rewrite DecimalZ.of_to.
Qed.

(** An address names one position, and a position has one address. *)
Lemma row_address_position resultSheetName N M address :
  row_address resultSheetName N address →
  row_address resultSheetName M address → N = M.
Proof.
  intros (numeral & -> & _ & HN) (numeral' & Heq & _ & HM).
  repeat apply (inj (String.app _)) in Heq. subst numeral'.
  rewrite HN in HM. injection HM as HM. lia.
Qed.

Lemma row_address_unique resultSheetName N address address' :
  row_address resultSheetName N address →
  row_address resultSheetName N address' → address = address'.
Proof.
  intros (numeral & -> & Hread & _) (numeral' & -> & Hread' & _).
  apply NilZero.sis in Hread, Hread'. by rewrite <- Hread, <- Hread'.
Qed.

(** C7: the rows delivered are written one call each, in the order
    received, the [N]-th received at row position [N] of the sheet,
    counted from 1 and one further for each row; when a call fails the
    run returns its error, the rows before it stay written at their
    positions and the rows after it are left on the channel. *)
Theorem RecordResults_in_order Update spreadsheetID resultSheetName resultChannel :
  (Z.of_nat (length resultChannel) < 2 ^ 63)%Z →
  let run := RecordResults Update spreadsheetID resultSheetName resultChannel in
  ∃ n,
    length (written run) = n
    ∧ (∀ i resultLine, i < n → resultChannel !! i = Some resultLine →
         ∃ address,
           written run !! i = Some (address, resultLine)
           ∧ row_address resultSheetName (i + 1) address
           ∧ Update i spreadsheetID address resultLine = None)
    ∧ match result run with
      | None => n = length resultChannel ∧ unread run = []
      | Some err =>
          ∃ resultLine address,
            resultChannel !! n = Some resultLine
            ∧ row_address resultSheetName (n + 1) address
            ∧ Update n spreadsheetID address resultLine = Some err
            ∧ unread run = drop (S n) resultChannel
      end.
Proof.
  intros Hbound.
  destruct (RecordResults_from_spec Update spreadsheetID resultSheetName
              resultChannel 0 1%Z) as (n & Hwritten & Hok & Hresult); [done..|].
  simpl in Hwritten, Hok, Hresult. simpl.
  change (RecordResults_from Update spreadsheetID resultSheetName 1 0 resultChannel)
    with (RecordResults Update spreadsheetID resultSheetName resultChannel) in *.
  assert (Hn : n ≤ length resultChannel).
  { destruct (result _); [|lia].
    destruct Hresult as (row & Hrow%lookup_lt_Some & _). lia. }
  exists n. split_and!.
  - rewrite Hwritten, length_imap, length_take. lia.
  - intros i row Hi Hrow.
    exists (getAddress resultSheetName (Z.of_nat (i + 1))). split_and!.
    + rewrite Hwritten, list_lookup_imap, lookup_take_lt, Hrow by done.
      reflexivity.
    + apply getAddress_row_address.
    + by apply Hok.
  - destruct (result _) as [err|]; [|done].
    destruct Hresult as (row & Hrow & Hfail & Hunread).
    exists row, (getAddress resultSheetName (Z.of_nat (n + 1))).
    split_and!; [done|apply getAddress_row_address|done|done].
Qed.

(** A service whose third call fails. *)
Definition third_call_fails (n : nat) (_ _ : string) (_ : list string)
  : option error :=
  if decide (n = 2) then Some "quota exceeded" else None.

Lemma RecordResults_in_order_witness :
  let resultChannel := [["x"; "sum"]; ["1"; "2"]; ["2"; "4"]; ["3"; "6"]] in
  let run := RecordResults third_call_fails "sheet" "result_1" resultChannel in
  (Z.of_nat (length resultChannel) < 2 ^ 63)%Z
  ∧ written run = [("result_1!A1", ["x"; "sum"]); ("result_1!A2", ["1"; "2"])]
  ∧ ∃ n,
      length (written run) = n
      ∧ (∀ i resultLine, i < n → resultChannel !! i = Some resultLine →
           ∃ address,
             written run !! i = Some (address, resultLine)
             ∧ row_address "result_1" (i + 1) address
             ∧ third_call_fails i "sheet" address resultLine = None)
      ∧ match result run with
        | None => n = length resultChannel ∧ unread run = []
        | Some err =>
            ∃ resultLine address,
              resultChannel !! n = Some resultLine
              ∧ row_address "result_1" (n + 1) address
              ∧ third_call_fails n "sheet" address resultLine = Some err
              ∧ unread run = drop (S n) resultChannel
        end.
Proof.
  split; [simpl; lia|]. split; [reflexivity|].
  apply (RecordResults_in_order third_call_fails "sheet" "result_1"
           [["x"; "sum"]; ["1"; "2"]; ["2"; "4"]; ["3"; "6"]]).
  simpl; lia.
Defined.

(** The positions are the ones that the reader finds in the addresses. *)
Example row_address_third : row_address "result_1" 3 "result_1!A3".
Proof. exists "3". by split_and!. Qed.

Example row_address_not_padded : ¬ row_address "result_1" 3 "result_1!A03".
Proof.
  intros (numeral & Heq & Hread & _).
  change "result_1!A03" with ("result_1" +:+ "!A" +:+ "03") in Heq.
  repeat apply (inj (String.app _)) in Heq. by subst numeral.
Qed.

Example RecordResults_three_rows :
  RecordResults (λ _ _ _ _, None) "sheet" "result_1"
    [["x"; "sum"]; ["1"; "2"]; ["2"; "4"]]
  = {| written := [("result_1!A1", ["x"; "sum"]); ("result_1!A2", ["1"; "2"]);
                   ("result_1!A3", ["2"; "4"])];
       unread := []; result := None |}.
Proof. reflexivity. Qed.

Example RecordResults_failed_write :
  RecordResults third_call_fails "sheet" "result_1"
    [["x"; "sum"]; ["1"; "2"]; ["2"; "4"]; ["3"; "6"]]
  = {| written := [("result_1!A1", ["x"; "sum"]); ("result_1!A2", ["1"; "2"])];
       unread := [["3"; "6"]]; result := Some "quota exceeded" |}.
Proof. reflexivity. Qed.

End Sink.

(** ** BlackBoxInvoker: [RunBlackBoxCmd] *)

Module Invoker.

(** [[]byte] *)
Definition bytes := string.

(** How the launch and the exit of the child process appear to
    [cmd.Output()], which starts the process, waits for it to exit and
    hands back what it printed: [Start] fails (no such file, no
    permission); the process exits with a status other than 0 or is
    killed ([*exec.ExitError]); it exits with status 0; it never exits.
    The command is built with [exec.Command], without a context or a
    deadline, and [Wait] has none of its own. *)
Inductive ChildRun :=
  | StartFails (err : error)
  | ExitsNonZero (err : error)
  | ExitsZero (stdout : bytes)
  | NeverExits.

(** One child process as the invocation meets it: the result of
    [cmd.StdinPipe()], the error that [stdin.Write] returns in the writer
    goroutine, whether the program reads its standard input to the end
    before it exits, and its run. *)
Record Child := {
  pipe : option error;
  write : option error;
  reads_stdin : bool;
  run : ChildRun;
}.

Section RunBlackBoxCmd.

(** [json.Marshal] of a [map[string]string] and [json.Unmarshal] into one;
    [exec n progPath jsonBytes] is the child that the [n]-th invocation of
    the run (from 0) launches for [progPath] when the request on its
    standard input is [jsonBytes]. *)
Variable json_Marshal : gmap string string → bytes * option error.
Variable json_Unmarshal : bytes → gmap string string * option error.
Variable exec : nat → string → bytes → Child.

(** [for i, inputItem := range inputSet { inputMap[varNames[i]] = inputItem }];
    [varNames[i]] panics when [inputSet] is the longer slice. *)
Fixpoint fill_inputMap (i : nat) (varNames inputSet : list string)
    (inputMap : gmap string string) : Res (gmap string string) :=
  match inputSet with
  | [] => Ret inputMap
  | inputItem :: inputSet =>
      match varNames !! i with
      | None => Panic
      | Some varName =>
          fill_inputMap (S i) varNames inputSet (<[varName := inputItem]> inputMap)
      end
  end.

(** From [cmd.StdinPipe()] to the end of the function.  The goroutine
    [go func() { stdin.Write(jsonBytes); defer stdin.Close() }()] hands
    nothing back: the value of [stdin.Write] is dropped and no channel or
    wait group ties the goroutine to the caller.  A [nil] map is the empty
    map. *)
Definition run_child (cmd : Child) : Res (gmap string string * option error) :=
  match pipe cmd with
  | Some err => Ret (∅, Some err)
  | None =>
      match run cmd with
      | StartFails err => Ret (∅, Some err)
      | ExitsNonZero err => Ret (∅, Some err)
      | ExitsZero output => Ret (json_Unmarshal output)
      | NeverExits => Blocked
      end
  end.

Definition RunBlackBoxCmd (n : nat) (progPath : string)
    (varNames inputSet : list string)
  : Res (gmap string string * option error) :=
  match fill_inputMap 0 varNames inputSet ∅ with
  | Panic => Panic
  | Blocked => Blocked
  | Ret inputMap =>
      match json_Marshal inputMap with
      | (_, Some err) => Ret (∅, Some err)
      | (jsonBytes, None) => run_child (exec n progPath jsonBytes)
      end
  end.

(** *** The two tasks of one invocation

    The program points of the invoking task, from [cmd.StdinPipe()] on,
    and of the writer goroutine; [step] interleaves them.  The child of a
    program that reads its input to the end exits only once the writer has
    closed the pipe; nothing else orders the two tasks. *)
Inductive MainPc :=
  | AtStdinPipe
  | AtGo
  | AtOutput
  | InWait
  | Returned (r : gmap string string * option error).

Inductive WriterPc :=
  | NotSpawned
  | AtWrite
  | AtClose (written : option error)
  | Finished (written : option error).

Record Tasks := { main : MainPc; writer : WriterPc }.

Definition entered : Tasks := {| main := AtStdinPipe; writer := NotSpawned |}.

Definition child_may_exit (cmd : Child) (w : WriterPc) : Prop :=
  reads_stdin cmd = true → ∃ written, w = Finished written.

Inductive step (cmd : Child) : Tasks → Tasks → Prop :=
  | step_pipe_fails err w :
      pipe cmd = Some err →
      step cmd {| main := AtStdinPipe; writer := w |}
               {| main := Returned (∅, Some err); writer := w |}
  | step_pipe w :
      pipe cmd = None →
      step cmd {| main := AtStdinPipe; writer := w |}
               {| main := AtGo; writer := w |}
  | step_go :
      step cmd {| main := AtGo; writer := NotSpawned |}
               {| main := AtOutput; writer := AtWrite |}
  | step_start_fails err w :
      run cmd = StartFails err →
      step cmd {| main := AtOutput; writer := w |}
               {| main := Returned (∅, Some err); writer := w |}
  | step_start w :
      (∀ err, run cmd ≠ StartFails err) →
      step cmd {| main := AtOutput; writer := w |}
               {| main := InWait; writer := w |}
  | step_exit_nonzero err w :
      run cmd = ExitsNonZero err → child_may_exit cmd w →
      step cmd {| main := InWait; writer := w |}
               {| main := Returned (∅, Some err); writer := w |}
  | step_exit_zero output w :
      run cmd = ExitsZero output → child_may_exit cmd w →
      step cmd {| main := InWait; writer := w |}
               {| main := Returned (json_Unmarshal output); writer := w |}
  | step_write m :
      step cmd {| main := m; writer := AtWrite |}
               {| main := m; writer := AtClose (write cmd) |}
  | step_close m written :
      step cmd {| main := m; writer := AtClose written |}
               {| main := m; writer := Finished written |}.

Definition reachable (cmd : Child) (s : Tasks) : Prop := rtc (step cmd) entered s.

(** *** Which invocations fail *)

Definition returns_error (r : Res (gmap string string * option error)) : Prop :=
  ∃ outputMap err, r = Ret (outputMap, Some err).

Definition no_decoding (cmd : Child) : Prop :=
  ∃ output, run cmd = ExitsZero output ∧ is_Some (json_Unmarshal output).2.

Lemma fill_inputMap_returns varNames inputSet : ∀ i inputMap,
  i + length inputSet ≤ length varNames →
  ∃ inputMap', fill_inputMap i varNames inputSet inputMap = Ret inputMap'.
Proof.
  induction inputSet as [|inputItem inputSet IH]; intros i inputMap Hlen; simpl.
  - by eexists.
  - simpl in Hlen.
    destruct (lookup_lt_is_Some_2 varNames i) as [varName ->]; [lia|].
    apply IH. lia.
Qed.

Lemma run_child_error cmd :
  returns_error (run_child cmd)
  ↔ is_Some (pipe cmd) ∨ (∃ err, run cmd = StartFails err)
    ∨ (∃ err, run cmd = ExitsNonZero err) ∨ no_decoding cmd.
Proof.
  unfold returns_error, run_child, no_decoding. split.
  - intros (outputMap & err & Hr).
    destruct (pipe cmd) as [e|]; [left; by eexists|]. right.
    destruct (run cmd) as [e|e|output|]; [by eauto..| |done].
    right; right. exists output. split; [done|].
    injection Hr as ->. by eexists.
  - intros [[e He]|Hrun].
    { rewrite He. by eauto. }
    destruct (pipe cmd) as [e|]; [by eauto|].
    destruct Hrun as [[e ->]|[[e ->]|(output & -> & e & He)]]; [by eauto..|].
    destruct (json_Unmarshal output) as [outputMap err]. simpl in He. subst.
    by eauto.
Qed.

Lemma run_child_blocked cmd :
  run_child cmd = Blocked ↔ pipe cmd = None ∧ run cmd = NeverExits.
Proof.
  unfold run_child. split.
  - destruct (pipe cmd); [done|]. by destruct (run cmd).
  - by intros [-> ->].
Qed.

Lemma run_child_decoded cmd output :
  pipe cmd = None → run cmd = ExitsZero output →
  (json_Unmarshal output).2 = None →
  run_child cmd = Ret ((json_Unmarshal output).1, None).
Proof.
  unfold run_child. intros -> -> Hdecoded.
  by destruct (json_Unmarshal output) as [outputMap []].
Qed.

(** *** The writer goroutine and the value returned *)

Definition settled (cmd : Child) (s : Tasks) : Prop :=
  match main s with
  | AtStdinPipe => True
  | AtGo | AtOutput => pipe cmd = None
  | InWait => pipe cmd = None ∧ ∀ err, run cmd ≠ StartFails err
  | Returned r => run_child cmd = Ret r
  end.

Lemma step_settled cmd s s' : settled cmd s → step cmd s s' → settled cmd s'.
Proof.
  unfold settled, run_child.
  destruct 2 as [err w Hpipe|w Hpipe| |err w Hrun|w Hrun|err w Hrun _
                 |output w Hrun _|m|m written]; simpl in *; try done.
  - by rewrite Hpipe.
  - by rewrite H, Hrun.
  - destruct H as [-> _]. by rewrite Hrun.
  - destruct H as [-> _]. by rewrite Hrun.
Qed.

Lemma reachable_settled cmd s : reachable cmd s → settled cmd s.
Proof.
  unfold reachable. revert s. apply rtc_ind_r.
  - exact I.
  - intros s s' _ Hstep Hs. by eapply step_settled.
Qed.

(** Every value that [run_child] returns is returned by some schedule of
    the two tasks: the one in which the writer runs to its end as soon as
    it is started. *)
Lemma waiting_reachable cmd :
  pipe cmd = None → (∀ err, run cmd ≠ StartFails err) →
  ∀ w, w = AtWrite ∨ w = Finished (write cmd) →
       reachable cmd {| main := InWait; writer := w |}.
Proof.
  intros Hpipe Hstart.
  assert (Hwrite : reachable cmd {| main := InWait; writer := AtWrite |}).
  { unfold reachable.
    eapply rtc_l; [by apply step_pipe|].
    eapply rtc_l; [apply step_go|].
    eapply rtc_l; [by apply step_start|].
    done. }
  intros w [->| ->]; [done|].
  eapply rtc_r; [|apply step_close].
  eapply rtc_r; [exact Hwrite|apply step_write].
Qed.

Lemma returned_reachable cmd r :
  run_child cmd = Ret r → ∃ s, reachable cmd s ∧ main s = Returned r.
Proof.
  unfold run_child.
  destruct (pipe cmd) as [pipeErr|] eqn:Hpipe.
  { intros [= <-].
    exists {| main := Returned (∅, Some pipeErr); writer := NotSpawned |}.
    split; [|done]. apply rtc_once. by apply step_pipe_fails. }
  destruct (run cmd) as [err|err|output|] eqn:Hrun; intros [= <-].
  - exists {| main := Returned (∅, Some err); writer := AtWrite |}.
    split; [|done]. unfold reachable.
    eapply rtc_l; [by apply step_pipe|].
    eapply rtc_l; [apply step_go|].
    eapply rtc_l; [by apply step_start_fails|].
    done.
  - exists {| main := Returned (∅, Some err); writer := Finished (write cmd) |}.
    split; [|done].
    eapply rtc_r; [apply waiting_reachable; [done|congruence|by right]|].
    apply step_exit_nonzero; [done|]. intros _. by eexists.
  - exists {| main := Returned (json_Unmarshal output);
              writer := Finished (write cmd) |}.
    split; [|done].
    eapply rtc_r; [apply waiting_reachable; [done|congruence|by right]|].
    apply step_exit_zero; [done|]. intros _. by eexists.
Qed.

(** A program that does not wait for its input lets the invocation return
    while the writer has not written yet. *)
Lemma returned_before_write cmd r :
  pipe cmd = None → reads_stdin cmd = false → run_child cmd = Ret r →
  reachable cmd {| main := Returned r; writer := AtWrite |}.
Proof.
  intros Hpipe Hreads. unfold run_child. rewrite Hpipe.
  assert (Hexit : child_may_exit cmd AtWrite).
  { intros Htrue. congruence. }
  destruct (run cmd) as [err|err|output|] eqn:Hrun; intros [= <-].
  - unfold reachable.
    eapply rtc_l; [by apply step_pipe|].
    eapply rtc_l; [apply step_go|].
    eapply rtc_l; [by apply step_start_fails|].
    done.
  - eapply rtc_r; [apply waiting_reachable; [done|congruence|by left]|].
    by apply step_exit_nonzero.
  - eapply rtc_r; [apply waiting_reachable; [done|congruence|by left]|].
    by apply step_exit_zero.
Qed.

(** A program that reads its input to the end, once started, has exited
    only after the writer closed the pipe: for such a child the pipe itself
    orders the writer before the return. *)
Definition ordered_by_pipe (cmd : Child) (s : Tasks) : Prop :=
  ∀ r, main s = Returned r → ∃ written, writer s = Finished written.

Lemma step_ordered_by_pipe cmd s s' :
  reads_stdin cmd = true → pipe cmd = None → (∀ err, run cmd ≠ StartFails err) →
  ordered_by_pipe cmd s → step cmd s s' → ordered_by_pipe cmd s'.
Proof.
  unfold ordered_by_pipe. intros Hreads Hpipe Hstart Hs.
  destruct 1 as [err w Hfail|w _| |err w Hrun|w _|err w _ Hexit
                 |output w _ Hexit|m|m written]; simpl in *;
    intros r Hr; try done.
  - congruence.
  - by destruct (Hstart err).
  - by apply Hexit.
  - by apply Hexit.
  - by destruct (Hs r Hr).
  - by eexists.
Qed.

Lemma reader_child_orders_writer cmd s :
  reads_stdin cmd = true → pipe cmd = None → (∀ err, run cmd ≠ StartFails err) →
  reachable cmd s → ordered_by_pipe cmd s.
Proof.
  intros Hreads Hpipe Hstart. unfold reachable. revert s. apply rtc_ind_r.
  - by intros r.
  - intros s s' _ Hstep Hs. by eapply step_ordered_by_pipe.
Qed.

End RunBlackBoxCmd.

(** *** An instance: a codec and scripted children

    [json.Marshal] and [json.Unmarshal] belong to Go's library and stay
    parameters of the functions above.  To run these functions on concrete
    requests and outputs the two parameters are instantiated with a codec
    for the JSON texts that a black-box program ordinarily exchanges:
    objects whose names and values are strings.

    [flat_Marshal] writes the names in increasing order and escapes as
    [encoding/json] does: the quote and the backslash with a backslash,
    [<], [>] and [&] as [\u003c], [\u003e] and [\u0026], the newline, the
    carriage return and the tab as [\n], [\r] and [\t], any other byte
    below 32 as [\u00XX] (releases of Go from 1.22 on write [\b] and
    [\f] for the backspace and the form feed).

    [flat_Unmarshal] accepts white space around every token, the text
    [null] (a nil map, no error), objects with string or [null] values (a
    [null] value leaves the empty string), the escapes of JSON with
    [\uXXXX] for the code points of the basic plane written in UTF-8, and
    repeated names (the last one stays).  On a text that is not JSON it
    returns the empty map and the message of [encoding/json]'s scanner for
    the first offending byte.

    Outside the instance: bytes that are not valid UTF-8, surrogate pairs
    and the line separators U+2028 and U+2029, on which [encoding/json]
    substitutes or escapes; and values that are not strings, where
    [encoding/json] first checks the whole text and then goes on decoding
    the other names, while the instance stops at the value. *)

Definition quote_char : ascii := "034"%char.

Definition hex_digit (n : nat) : ascii :=
  default "0"%char
    (list_ascii_of_string "0123456789abcdef" !! n).

Definition escaped (c : ascii) : string :=
  if bool_decide (c = quote_char) then String "\" (String quote_char "")
  else if bool_decide (c = "\"%char) then "\\"
  else if bool_decide (c = "<"%char) then "\u003c"
  else if bool_decide (c = ">"%char) then "\u003e"
  else if bool_decide (c = "&"%char) then "\u0026"
  else if bool_decide (c = "010"%char) then "\n"
  else if bool_decide (c = "013"%char) then "\r"
  else if bool_decide (c = "009"%char) then "\t"
  else if bool_decide (nat_of_ascii c < 32)
       then "\u00" +:+ String (hex_digit (nat_of_ascii c / 16))
                         (String (hex_digit (nat_of_ascii c `mod` 16)) "")
  else String c "".

Fixpoint escape (s : string) : string :=
  match s with
  | EmptyString => EmptyString
  | String c s' => escaped c +:+ escape s'
  end.

Definition quoted (s : string) : string :=
  String quote_char (escape s +:+ String quote_char EmptyString).

Definition encode_object (fields : list (string * string)) : bytes :=
  "{" +:+ String.concat ","
            ((λ field, quoted field.1 +:+ ":" +:+ quoted field.2) <$> fields)
      +:+ "}".

Definition flat_Marshal (inputMap : gmap string string) : bytes * option error :=
  (encode_object
     ((λ name, (name, default "" (inputMap !! name)))
        <$> merge_sort String.le (map_to_list inputMap).*1),
   None).

(** What a reader makes of the text before it: a value and the text left,
    or an error. *)
Inductive Read (A : Type) : Type :=
  | Got (a : A) (rest : string)
  | Bad (err : error).
Arguments Got {A} a rest.
Arguments Bad {A} err.

Definition json_space (c : ascii) : bool :=
  bool_decide (c ∈ [" "; "009"; "010"; "013"]%char).

Fixpoint skip_space (s : string) : string :=
  match s with
  | EmptyString => s
  | String c s' => if json_space c then skip_space s' else s
  end.

(** The byte of a message between apostrophes, as the scanner prints it. *)
Definition quoteChar (c : ascii) : string :=
  if bool_decide (c = "'"%char) then "'\''"
  else if bool_decide (c = "010"%char) then "'\n'"
  else if bool_decide (c = "013"%char) then "'\r'"
  else if bool_decide (c = "009"%char) then "'\t'"
  else String "'" (String c "'").

Definition syntax_error (c : ascii) (context : string) : error :=
  "invalid character " +:+ quoteChar c +:+ " " +:+ context.

Definition unexpected_end : error := "unexpected end of JSON input".

Definition type_error (value type : string) : error :=
  "json: cannot unmarshal " +:+ value +:+ " into Go value of type " +:+ type.

Definition hex_value (c : ascii) : option N :=
  let n := N_of_ascii c in
  if bool_decide (48 ≤ n ≤ 57)%N then Some (n - 48)%N
  else if bool_decide (97 ≤ n ≤ 102)%N then Some (n - 87)%N
  else if bool_decide (65 ≤ n ≤ 70)%N then Some (n - 55)%N
  else None.

(** The bytes of a code point of the basic plane in UTF-8; a lone
    surrogate gives the bytes of U+FFFD. *)
Definition utf8 (n : N) : string :=
  let n := if bool_decide (55296 ≤ n ≤ 57343)%N then 65533%N else n in
  string_of_list_ascii
    (ascii_of_N <$>
       (if bool_decide (n < 128)%N then [n]
        else if bool_decide (n < 2048)%N
        then [192 + n / 64; 128 + n `mod` 64]%N
        else [224 + n / 4096; 128 + n / 64 `mod` 64; 128 + n `mod` 64]%N)).

Definition unescape (e : ascii) : option ascii :=
  if bool_decide (e = quote_char) then Some quote_char
  else if bool_decide (e = "\"%char) then Some "\"%char
  else if bool_decide (e = "/"%char) then Some "/"%char
  else if bool_decide (e = "b"%char) then Some "008"%char
  else if bool_decide (e = "f"%char) then Some "012"%char
  else if bool_decide (e = "n"%char) then Some "010"%char
  else if bool_decide (e = "r"%char) then Some "013"%char
  else if bool_decide (e = "t"%char) then Some "009"%char
  else None.

Definition more (prefix : string) (r : Read string) : Read string :=
  match r with
  | Got word rest => Got (prefix +:+ word) rest
  | Bad err => Bad err
  end.

Definition hex_escape (h1 h2 h3 h4 : ascii) : error + string :=
  match hex_value h1, hex_value h2, hex_value h3, hex_value h4 with
  | Some a, Some b, Some c, Some d =>
      inr (utf8 (4096 * a + 256 * b + 16 * c + d)%N)
  | None, _, _, _ => inl (syntax_error h1 "in \u hexadecimal character escape")
  | _, None, _, _ => inl (syntax_error h2 "in \u hexadecimal character escape")
  | _, _, None, _ => inl (syntax_error h3 "in \u hexadecimal character escape")
  | _, _, _, None => inl (syntax_error h4 "in \u hexadecimal character escape")
  end.

(** A string, read from the byte after its opening quote. *)
Fixpoint read_string (s : string) : Read string :=
  match s with
  | EmptyString => Bad unexpected_end
  | String c s1 =>
      if bool_decide (c = quote_char) then Got EmptyString s1
      else if bool_decide (c = "\"%char) then
        match s1 with
        | EmptyString => Bad unexpected_end
        | String e s2 =>
            if bool_decide (e = "u"%char) then
              match s2 with
              | String h1 (String h2 (String h3 (String h4 s6))) =>
                  match hex_escape h1 h2 h3 h4 with
                  | inr bytes => more bytes (read_string s6)
                  | inl err => Bad err
                  end
              | _ => Bad unexpected_end
              end
            else
              match unescape e with
              | Some b => more (String b EmptyString) (read_string s2)
              | None => Bad (syntax_error e "in string escape code")
              end
        end
      else if bool_decide (nat_of_ascii c < 32)
      then Bad (syntax_error c "in string literal")
      else more (String c EmptyString) (read_string s1)
  end.

(** The kind of JSON value that begins with a byte, for the message of a
    value that is not of the expected type. *)
Definition value_kind (c : ascii) : option string :=
  let n := nat_of_ascii c in
  if bool_decide (c = quote_char) then Some "string"
  else if bool_decide (c = "{"%char) then Some "object"
  else if bool_decide (c = "["%char) then Some "array"
  else if bool_decide (c = "t"%char ∨ c = "f"%char) then Some "bool"
  else if bool_decide (c = "-"%char ∨ 48 ≤ n ≤ 57) then Some "number"
  else None.

(** The literal [null], read from the byte after its [n]. *)
Definition read_null (s : string) : Read unit :=
  match s with
  | EmptyString => Bad unexpected_end
  | String c1 s1 =>
      if negb (bool_decide (c1 = "u"%char))
      then Bad (syntax_error c1 "in literal null (expecting 'u')")
      else match s1 with
           | EmptyString => Bad unexpected_end
           | String c2 s2 =>
               if negb (bool_decide (c2 = "l"%char))
               then Bad (syntax_error c2 "in literal null (expecting 'l')")
               else match s2 with
                    | EmptyString => Bad unexpected_end
                    | String c3 s3 =>
                        if negb (bool_decide (c3 = "l"%char))
                        then Bad (syntax_error c3 "in literal null (expecting 'l')")
                        else Got () s3
                    end
           end
  end.

(** The value of a name: a string, or [null] for the empty string. *)
Definition read_value (s : string) : Read string :=
  match s with
  | EmptyString => Bad unexpected_end
  | String c s1 =>
      if bool_decide (c = quote_char) then read_string s1
      else if bool_decide (c = "n"%char) then
        match read_null s1 with
        | Got _ rest => Got EmptyString rest
        | Bad err => Bad err
        end
      else match value_kind c with
           | Some kind => Bad (type_error kind "string")
           | None => Bad (syntax_error c "looking for beginning of value")
           end
  end.

(** The members of an object, read from the first byte of a name. *)
Fixpoint read_members (fuel : nat) (s : string) (outputMap : gmap string string)
  : Read (gmap string string) :=
  match fuel with
  | 0 => Bad unexpected_end
  | S fuel =>
      match s with
      | EmptyString => Bad unexpected_end
      | String c s1 =>
          if negb (bool_decide (c = quote_char))
          then Bad (syntax_error c "looking for beginning of object key string")
          else
            match read_string s1 with
            | Bad err => Bad err
            | Got name s2 =>
                match skip_space s2 with
                | EmptyString => Bad unexpected_end
                | String c s3 =>
                    if negb (bool_decide (c = ":"%char))
                    then Bad (syntax_error c "after object key")
                    else
                      match read_value (skip_space s3) with
                      | Bad err => Bad err
                      | Got value s4 =>
                          let outputMap := <[name := value]> outputMap in
                          match skip_space s4 with
                          | EmptyString => Bad unexpected_end
                          | String c s5 =>
                              if bool_decide (c = ","%char)
                              then read_members fuel (skip_space s5) outputMap
                              else if bool_decide (c = "}"%char)
                              then Got outputMap s5
                              else Bad (syntax_error c "after object key:value pair")
                          end
                      end
                end
            end
      end
  end.

(** An object, read from the byte after its opening brace. *)
Definition read_object (s : string) : Read (gmap string string) :=
  match skip_space s with
  | EmptyString => Bad unexpected_end
  | String c s1 =>
      if bool_decide (c = "}"%char) then Got ∅ s1
      else read_members (String.length s) (String c s1) ∅
  end.

(** Nothing but white space may follow the value. *)
Definition at_end (outputMap : gmap string string) (rest : string)
  : gmap string string * option error :=
  match skip_space rest with
  | EmptyString => (outputMap, None)
  | String c _ => (∅, Some (syntax_error c "after top-level value"))
  end.

Definition flat_Unmarshal (output : bytes) : gmap string string * option error :=
  match skip_space output with
  | EmptyString => (∅, Some unexpected_end)
  | String c s1 =>
      if bool_decide (c = "{"%char) then
        match read_object s1 with
        | Got outputMap rest => at_end outputMap rest
        | Bad err => (∅, Some err)
        end
      else if bool_decide (c = "n"%char) then
        match read_null s1 with
        | Got _ rest => at_end ∅ rest
        | Bad err => (∅, Some err)
        end
      else match value_kind c with
           | Some kind => (∅, Some (type_error kind "map[string]string"))
           | None => (∅, Some (syntax_error c "looking for beginning of value"))
           end
  end.

(** A child that takes its whole input, prints [output] and exits with
    status 0; a child that never exits; the run in which the [n]-th
    invocation meets the [n]-th child of a list. *)
Definition prints (output : bytes) : Child :=
  {| pipe := None; write := None; reads_stdin := true; run := ExitsZero output |}.

Definition hangs : Child :=
  {| pipe := None; write := None; reads_stdin := false; run := NeverExits |}.

Definition scripted (children : list Child) (n : nat) (_ : string) (_ : bytes)
  : Child :=
  default hangs (children !! n).

Example flat_Marshal_request :
  flat_Marshal (<["y" := "a"]> (<["x" := "1"]> ∅))
  = (encode_object [("x", "1"); ("y", "a")], None).
Proof. vm_compute. reflexivity. Qed.

Example flat_Unmarshal_output :
  flat_Unmarshal (encode_object [("sum", "3"); ("product", "2")])
  = (<["product" := "2"]> (<["sum" := "3"]> ∅), None).
Proof. vm_compute. reflexivity. Qed.

Example flat_Unmarshal_malformed :
  (flat_Unmarshal "sum=3").2
  = Some "invalid character 's' looking for beginning of value".
Proof. reflexivity. Qed.

Example flat_Unmarshal_newline :
  flat_Unmarshal (encode_object [("sum", "3")] +:+ String "010"%char "")
  = (<["sum" := "3"]> ∅, None).
Proof. vm_compute. reflexivity. Qed.

Example flat_Unmarshal_spaces :
  flat_Unmarshal ("{ " +:+ quoted "sum" +:+ " : " +:+ quoted "3" +:+ " , "
                  +:+ quoted "mean" +:+ ": null }")
  = (<["mean" := ""]> (<["sum" := "3"]> ∅), None).
Proof. vm_compute. reflexivity. Qed.

Example flat_Unmarshal_null : flat_Unmarshal "null" = (∅, None).
Proof. reflexivity. Qed.

Example flat_Unmarshal_empty_output :
  flat_Unmarshal "" = (∅, Some "unexpected end of JSON input").
Proof. reflexivity. Qed.

Example flat_Unmarshal_after_value :
  (flat_Unmarshal "{} done").2
  = Some "invalid character 'd' after top-level value".
Proof. reflexivity. Qed.

Example flat_Marshal_escapes :
  (flat_Marshal (<["x" := "a<b" +:+ String quote_char "c"]> ∅)).1
  = "{" +:+ String quote_char "x" +:+ String quote_char ":"
    +:+ String quote_char "a\u003cb\" +:+ String quote_char "c"
    +:+ String quote_char "}".
Proof. vm_compute. reflexivity. Qed.

Example flat_codec_round_trip :
  flat_Unmarshal (flat_Marshal (<["x" := "a<b" +:+ String quote_char "c"]> ∅)).1
  = (<["x" := "a<b" +:+ String quote_char "c"]> ∅, None).
Proof. vm_compute. reflexivity. Qed.

(** *** Claims about [RunBlackBoxCmd] *)

(** C8, as stated, fails at a child that never exits: the invocation waits
    for ever, it does not time out and returns no error. *)
Lemma RunBlackBoxCmd_timeout_counterexample :
  let r := RunBlackBoxCmd flat_Marshal flat_Unmarshal (scripted [hangs])
             0 "adapter" ["x"] ["1"] in
  run (scripted [hangs] 0 "adapter" (encode_object [("x", "1")])) = NeverExits
  ∧ r = Blocked
  ∧ ¬ returns_error r.
Proof.
  assert (Hr : RunBlackBoxCmd flat_Marshal flat_Unmarshal (scripted [hangs])
                 0 "adapter" ["x"] ["1"] = Blocked) by (vm_compute; reflexivity).
  split_and!; [reflexivity|exact Hr|].
  rewrite Hr. by intros (outputMap & err & ?).
Qed.

(** C8 (amended): for an input tuple no longer than the variable names,
    [RunBlackBoxCmd] returns an error exactly when the pipe to the child's
    standard input cannot be created, the program fails to launch, it
    exits with a status other than 0, or its output does not decode; it
    never returns exactly when the child never exits, there being no
    timeout; when the child exits with status 0 and its output decodes,
    the decoded mapping is returned. *)
Theorem RunBlackBoxCmd_error_cases json_Marshal json_Unmarshal exec
    n progPath varNames inputSet :
  length inputSet ≤ length varNames →
  (∀ inputMap, (json_Marshal inputMap).2 = None) →
  ∃ inputMap,
    fill_inputMap 0 varNames inputSet ∅ = Ret inputMap
    ∧ let cmd := exec n progPath (json_Marshal inputMap).1 in
      let r := RunBlackBoxCmd json_Marshal json_Unmarshal exec
                 n progPath varNames inputSet in
      (returns_error r
       ↔ is_Some (pipe cmd) ∨ (∃ err, run cmd = StartFails err)
         ∨ (∃ err, run cmd = ExitsNonZero err) ∨ no_decoding json_Unmarshal cmd)
      ∧ (r = Blocked ↔ pipe cmd = None ∧ run cmd = NeverExits)
      ∧ (∀ output,
           pipe cmd = None → run cmd = ExitsZero output →
           (json_Unmarshal output).2 = None →
           r = Ret ((json_Unmarshal output).1, None)).
Proof.
  intros Hlen Hmarshal.
  destruct (fill_inputMap_returns varNames inputSet 0 ∅ Hlen) as [inputMap Hfill].
  exists inputMap. split; [done|]. simpl. unfold RunBlackBoxCmd. rewrite Hfill.
  specialize (Hmarshal inputMap).
  destruct (json_Marshal inputMap) as [jsonBytes marshalErr].
  simpl in *. subst marshalErr. split_and!.
  - apply run_child_error.
  - apply run_child_blocked.
  - apply run_child_decoded.
Qed.

Lemma RunBlackBoxCmd_error_cases_witness :
  let exec := scripted [prints (encode_object [("sum", "3")])] in
  length ["1"; "2"] ≤ length ["x"; "y"]
  ∧ (∀ inputMap, (flat_Marshal inputMap).2 = None)
  ∧ ∃ inputMap,
      fill_inputMap 0 ["x"; "y"] ["1"; "2"] ∅ = Ret inputMap
      ∧ let cmd := exec 0 "adapter" (flat_Marshal inputMap).1 in
        let r := RunBlackBoxCmd flat_Marshal flat_Unmarshal exec
                   0 "adapter" ["x"; "y"] ["1"; "2"] in
        (returns_error r
         ↔ is_Some (pipe cmd) ∨ (∃ err, run cmd = StartFails err)
           ∨ (∃ err, run cmd = ExitsNonZero err) ∨ no_decoding flat_Unmarshal cmd)
        ∧ (r = Blocked ↔ pipe cmd = None ∧ run cmd = NeverExits)
        ∧ (∀ output,
             pipe cmd = None → run cmd = ExitsZero output →
             (flat_Unmarshal output).2 = None →
             r = Ret ((flat_Unmarshal output).1, None)).
Proof.
  split; [simpl; lia|]. split; [reflexivity|].
  apply (RunBlackBoxCmd_error_cases flat_Marshal flat_Unmarshal
           (scripted [prints (encode_object [("sum", "3")])])
           0 "adapter" ["x"; "y"] ["1"; "2"]).
  - simpl; lia.
  - reflexivity.
Defined.

Example RunBlackBoxCmd_decodes :
  RunBlackBoxCmd flat_Marshal flat_Unmarshal
    (scripted [prints (encode_object [("sum", "3")])])
    0 "adapter" ["x"; "y"] ["1"; "2"]
  = Ret (<["sum" := "3"]> ∅, None).
Proof. vm_compute. reflexivity. Qed.

Example RunBlackBoxCmd_long_tuple :
  RunBlackBoxCmd flat_Marshal flat_Unmarshal (scripted []) 0 "adapter"
    ["x"] ["1"; "2"] = Panic.
Proof. reflexivity. Qed.

(** A program that prints an empty object without reading its input, met
    in a run where the write to its pipe fails. *)
Definition ignores_input : Child :=
  {| pipe := None; write := Some "write |1: broken pipe";
     reads_stdin := false; run := ExitsZero "{}" |}.

(** C9, as stated, fails at [ignores_input]: the invocation can return its
    result while the writer has not yet written, the writer then goes on
    after the return, and when the write has failed before the return the
    invocation still returns success although the reader did not fail. *)
Lemma RunBlackBoxCmd_join_counterexample :
  reachable flat_Unmarshal ignores_input
    {| main := Returned (∅, None); writer := AtWrite |}
  ∧ step flat_Unmarshal ignores_input
      {| main := Returned (∅, None); writer := AtWrite |}
      {| main := Returned (∅, None);
         writer := AtClose (Some "write |1: broken pipe") |}
  ∧ reachable flat_Unmarshal ignores_input
      {| main := Returned (∅, None);
         writer := Finished (Some "write |1: broken pipe") |}.
Proof.
  assert (Hwait : reachable flat_Unmarshal ignores_input
                    {| main := InWait; writer := AtWrite |}).
  { unfold reachable.
    eapply rtc_l; [by apply step_pipe|].
    eapply rtc_l; [apply step_go|].
    eapply rtc_l; [by apply step_start|].
    done. }
  assert (Hexit : ∀ w, step flat_Unmarshal ignores_input
                         {| main := InWait; writer := w |}
                         {| main := Returned (∅, None); writer := w |}).
  { intros w. by apply (step_exit_zero flat_Unmarshal ignores_input "{}" w). }
  split_and!.
  - eapply rtc_r; [exact Hwait|apply Hexit].
  - apply (step_write flat_Unmarshal ignores_input).
  - eapply rtc_r; [|apply Hexit].
    eapply rtc_r; [|apply step_close].
    eapply rtc_r; [exact Hwait|].
    apply (step_write flat_Unmarshal ignores_input).
Qed.

(** C9 (amended): the write to the child's standard input runs in a task
    of its own that the invocation starts and never joins.  The values
    that the invocation can return are exactly the one that the creation
    of the pipe, the run of the child and the decoding of its output
    determine, whatever the writer has done by then and whatever its
    write returned; with a program that does not wait for its input the
    invocation can return before the writer has written. *)
Theorem RunBlackBoxCmd_writer_detached json_Unmarshal cmd r :
  ((∃ s, reachable json_Unmarshal cmd s ∧ main s = Returned r)
   ↔ run_child json_Unmarshal cmd = Ret r)
  ∧ (∀ written reads,
       run_child json_Unmarshal
         {| pipe := pipe cmd; write := written; reads_stdin := reads;
            run := run cmd |}
       = run_child json_Unmarshal cmd)
  ∧ (pipe cmd = None → reads_stdin cmd = false →
     run_child json_Unmarshal cmd = Ret r →
     reachable json_Unmarshal cmd {| main := Returned r; writer := AtWrite |}).
Proof.
  split_and!.
  - split.
    + intros (s & Hreach & Hmain).
      apply reachable_settled in Hreach. unfold settled in Hreach.
      by rewrite Hmain in Hreach.
    + apply returned_reachable.
  - reflexivity.
  - apply returned_before_write.
Qed.

Lemma RunBlackBoxCmd_writer_detached_witness :
  (pipe ignores_input = None ∧ reads_stdin ignores_input = false
   ∧ run_child flat_Unmarshal ignores_input = Ret (∅, None))
  ∧ reachable flat_Unmarshal ignores_input
      {| main := Returned (∅, None); writer := AtWrite |}.
Proof.
  split; [by split_and!|].
  by apply (proj2 (proj2 (RunBlackBoxCmd_writer_detached flat_Unmarshal
                            ignores_input (∅, None)))).
Defined.

End Invoker.

(** ** ExplorationDriver: [RecordSortedKeys] and [RunExploration] *)

Module Driver.

Import Invoker.

(** [for key, _ := range output { keys = append(keys, key) }] followed by
    [sort.Strings(keys)].  Go visits the entries of a map in an order of
    its choosing, [entries] is that order; [sort.Strings] sorts by bytes. *)
Definition sorted_keys_of (entries : list (string * string)) : list string :=
  let keys := foldl (λ keys entry, keys ++ [entry.1]) [] entries in
  merge_sort String.le keys.

Definition RecordSortedKeys (output : gmap string string) : list string :=
  sorted_keys_of (map_to_list output).

(** What is put on [resultChan]: the send at line 267 carries the header,
    the send at line 273 a result line. *)
Inductive Sent :=
  | SentHeader (row : list string)
  | SentData (row : list string).

Definition cells (s : Sent) : list string :=
  match s with SentHeader row | SentData row => row end.

Definition is_header (s : Sent) : bool :=
  match s with SentHeader _ => true | SentData _ => false end.

(** The state that the loop of [RunExploration] carries: the variable
    [outputVars], the rows sent so far on [resultChan], the input sets
    handed to [RunBlackBoxCmd] so far. *)
Record Loop := {
  outputVars : list string;
  sent : list Sent;
  invoked : list (list string);
}.

(** *** [RecordSortedKeys] returns the field names, sorted *)

Lemma keys_loop_eq (entries : list (string * string)) :
  foldl (λ keys entry, keys ++ [entry.1]) [] entries = entries.*1.
Proof.
  enough (∀ keys, foldl (λ keys (entry : string * string), keys ++ [entry.1])
                    keys entries = keys ++ entries.*1) as H by apply H.
  induction entries as [|entry entries IH]; intros keys; simpl.
  - by rewrite app_nil_r.
  - rewrite IH. by rewrite <- app_assoc.
Qed.

Lemma sorted_keys_of_Permutation entries : sorted_keys_of entries ≡ₚ entries.*1.
Proof. unfold sorted_keys_of. rewrite keys_loop_eq. apply merge_sort_Permutation. Qed.

Lemma sorted_keys_of_Sorted entries : Sorted String.le (sorted_keys_of entries).
Proof. unfold sorted_keys_of. apply (Sorted_merge_sort String.le). Qed.

(** The order in which the map is visited does not show in the result. *)
Lemma sorted_keys_of_order entries entries' :
  entries ≡ₚ entries' → sorted_keys_of entries = sorted_keys_of entries'.
Proof.
  intros Hperm. apply (Sorted_unique String.le); try apply sorted_keys_of_Sorted.
  rewrite !sorted_keys_of_Permutation. by rewrite Hperm.
Qed.

Lemma RecordSortedKeys_elem_of output key :
  key ∈ RecordSortedKeys output ↔ is_Some (output !! key).
Proof.
  unfold RecordSortedKeys. rewrite sorted_keys_of_Permutation.
  rewrite list_elem_of_fmap. split.
  - intros ([key' value] & -> & Hin). apply elem_of_map_to_list in Hin. by eexists.
  - intros [value Hvalue]. exists (key, value). split; [done|].
    by apply elem_of_map_to_list.
Qed.

Lemma RecordSortedKeys_NoDup output : NoDup (RecordSortedKeys output).
Proof.
  unfold RecordSortedKeys. rewrite sorted_keys_of_Permutation.
  apply NoDup_fst_map_to_list.
Qed.

Lemma RecordSortedKeys_nil output : RecordSortedKeys output = [] ↔ output = ∅.
Proof.
  unfold RecordSortedKeys. split.
  - intros Hnil. apply map_to_list_empty_iff.
    apply (fmap_nil_inv fst), Permutation_nil_r.
    by rewrite <- sorted_keys_of_Permutation, Hnil.
  - intros ->. by rewrite map_to_list_empty.
Qed.

Section RunExploration.

Variable json_Marshal : gmap string string → bytes * option error.
Variable json_Unmarshal : bytes → gmap string string * option error.
Variable exec : nat → string → bytes → Child.
Variable progPath : string.
Variable varNames : list string.

(** [outputMap[outputVar]]: the empty string for a missing key. *)
Definition value_of (outputMap : gmap string string) (outputVar : string) : string :=
  default "" (outputMap !! outputVar).

(** [resultLine := append([]string{}, inputSet...)] and the loop that
    appends one value per output variable. *)
Definition resultLine_of (inputSet outputVars : list string)
    (outputMap : gmap string string) : list string :=
  foldl (λ resultLine outputVar, resultLine ++ [value_of outputMap outputVar])
        ([] ++ inputSet) outputVars.

(** The body of the loop for the [i]-th input set; the second component
    is the way the function leaves the loop, if it does.  The progress
    line written to the standard error is not part of the state. *)
Definition iteration (i : nat) (inputSet : list string) (l : Loop)
  : Loop * option (Res (option error)) :=
  let l := {| outputVars := outputVars l; sent := sent l;
              invoked := invoked l ++ [inputSet] |} in
  match RunBlackBoxCmd json_Marshal json_Unmarshal exec i progPath varNames inputSet with
  | Panic => (l, Some Panic)
  | Blocked => (l, Some Blocked)
  | Ret (outputMap, Some err) => (l, Some (Ret (Some err)))
  | Ret (outputMap, None) =>
      let l :=
        if decide (length (outputVars l) = 0) then
          let outputVars := RecordSortedKeys outputMap in
          {| outputVars := outputVars;
             sent := sent l ++ [SentHeader (varNames ++ outputVars)];
             invoked := invoked l |}
        else l in
      let resultLine := resultLine_of inputSet (outputVars l) outputMap in
      ({| outputVars := outputVars l;
          sent := sent l ++ [SentData resultLine];
          invoked := invoked l |}, None)
  end.

Fixpoint RunExploration_from (i : nat) (inputSets : list (list string)) (l : Loop)
  : Loop * Res (option error) :=
  match inputSets with
  | [] => (l, Ret None)
  | inputSet :: inputSets =>
      match iteration i inputSet l with
      | (l, Some r) => (l, r)
      | (l, None) => RunExploration_from (S i) inputSets l
      end
  end.

Definition RunExploration (inputSets : list (list string))
  : Loop * Res (option error) :=
  RunExploration_from 0 inputSets {| outputVars := []; sent := []; invoked := [] |}.

(** *** The loop, iteration by iteration *)

Definition succeeds (i : nat) (inputSet : list string) : Prop :=
  ∃ outputMap,
    RunBlackBoxCmd json_Marshal json_Unmarshal exec i progPath varNames inputSet
    = Ret (outputMap, None).

Lemma value_of_missing outputMap outputVar :
  outputMap !! outputVar = None → value_of outputMap outputVar = "".
Proof. unfold value_of. by intros ->. Qed.

Lemma resultLine_of_eq inputSet outputVars outputMap :
  resultLine_of inputSet outputVars outputMap
  = inputSet ++ (value_of outputMap <$> outputVars).
Proof.
  unfold resultLine_of. simpl. generalize inputSet as resultLine.
  induction outputVars as [|outputVar outputVars IH]; intros resultLine; simpl.
  - by rewrite app_nil_r.
  - rewrite IH. by rewrite <- app_assoc.
Qed.

Lemma iteration_succeeds i inputSet l :
  succeeds i inputSet →
  ∃ l', iteration i inputSet l = (l', None)
        ∧ invoked l' = invoked l ++ [inputSet].
Proof.
  intros [outputMap Hrun]. unfold iteration. rewrite Hrun. simpl.
  eexists. split; [reflexivity|]. simpl. by case_decide.
Qed.

Lemma iteration_fails i inputSet l outputMap err :
  RunBlackBoxCmd json_Marshal json_Unmarshal exec i progPath varNames inputSet
  = Ret (outputMap, Some err) →
  iteration i inputSet l
  = ({| outputVars := outputVars l; sent := sent l;
        invoked := invoked l ++ [inputSet] |}, Some (Ret (Some err))).
Proof. intros Hrun. unfold iteration. by rewrite Hrun. Qed.

(** Over a prefix whose invocations all succeed the loop runs to the end,
    and it goes on from there with what follows the prefix. *)
Lemma RunExploration_from_prefix before : ∀ i l,
  (∀ j inputSet, before !! j = Some inputSet → succeeds (i + j) inputSet) →
  ∃ l',
    RunExploration_from i before l = (l', Ret None)
    ∧ invoked l' = invoked l ++ before
    ∧ ∀ inputSets,
        RunExploration_from i (before ++ inputSets) l
        = RunExploration_from (i + length before) inputSets l'.
Proof.
  induction before as [|inputSet before IH]; intros i l Hok; simpl.
  - exists l. split_and!; [done|by rewrite app_nil_r|].
    intros inputSets. by rewrite Nat.add_0_r.
  - destruct (iteration_succeeds i inputSet l) as (l1 & -> & Hinvoked).
    { specialize (Hok 0 inputSet eq_refl). by rewrite Nat.add_0_r in Hok. }
    destruct (IH (S i) l1) as (l' & Hrun & Hinvoked' & Hrest).
    { intros j t Hj. replace (S i + j) with (i + S j) by lia. by apply Hok. }
    exists l'. split_and!.
    + done.
    + rewrite Hinvoked', Hinvoked. by rewrite <- app_assoc.
    + intros inputSets. rewrite Hrest. f_equal. lia.
Qed.

(** *** Once [outputVars] holds a name *)

Definition uses_columns (columns : list string) (s : Sent) : Prop :=
  ∃ inputSet outputMap,
    s = SentData (inputSet ++ (value_of outputMap <$> columns)).

Lemma iteration_fixed_columns i inputSet l l' exit :
  outputVars l ≠ [] → iteration i inputSet l = (l', exit) →
  outputVars l' = outputVars l
  ∧ ∃ rows, sent l' = sent l ++ rows ∧ Forall (uses_columns (outputVars l)) rows.
Proof.
  intros Hvars. unfold iteration. simpl.
  destruct (RunBlackBoxCmd _ _ _ _ _ _ _) as [[outputMap [err|]]| |];
    intros [= <- <-]; simpl; try (split; [done|]; exists []; by rewrite app_nil_r).
  rewrite decide_False by (by destruct (outputVars l)). simpl.
  split; [done|]. eexists. split; [done|].
  constructor; [|done]. exists inputSet, outputMap. by rewrite resultLine_of_eq.
Qed.

Lemma RunExploration_from_fixed_columns inputSets : ∀ i l l' r,
  outputVars l ≠ [] → RunExploration_from i inputSets l = (l', r) →
  outputVars l' = outputVars l
  ∧ ∃ rows, sent l' = sent l ++ rows ∧ Forall (uses_columns (outputVars l)) rows.
Proof.
  induction inputSets as [|inputSet inputSets IH]; intros i l l' r Hvars; simpl.
  - intros [= <- <-]. split; [done|]. exists []. by rewrite app_nil_r.
  - destruct (iteration i inputSet l) as [l1 exit] eqn:Hiter.
    destruct (iteration_fixed_columns _ _ _ _ _ Hvars Hiter)
      as (Hvars1 & rows1 & Hsent1 & Hrows1).
    destruct exit as [r1|].
    + intros [= <- <-]. split; [done|]. by exists rows1.
    + intros Hrun. apply IH in Hrun as (Hvars' & rows & Hsent & Hrows);
        [|by rewrite Hvars1].
      split; [congruence|]. exists (rows1 ++ rows). split.
      * rewrite Hsent, Hsent1. by rewrite <- app_assoc.
      * apply Forall_app. split; [done|]. by rewrite <- Hvars1.
Qed.

(** A first record with a field: the header goes out once, first, and
    every result line follows the sorted field names of that record. *)
Lemma RunExploration_first_record inputSet inputSets outputMap l r :
  RunBlackBoxCmd json_Marshal json_Unmarshal exec 0 progPath varNames inputSet
  = Ret (outputMap, None) →
  outputMap ≠ ∅ →
  RunExploration (inputSet :: inputSets) = (l, r) →
  outputVars l = RecordSortedKeys outputMap
  ∧ ∃ rows,
      sent l = SentHeader (varNames ++ RecordSortedKeys outputMap)
               :: SentData (inputSet ++ (value_of outputMap <$> RecordSortedKeys outputMap))
               :: rows
      ∧ Forall (uses_columns (RecordSortedKeys outputMap)) rows.
Proof.
  intros Hfirst Hfields. unfold RunExploration. simpl. unfold iteration.
  rewrite Hfirst. simpl. rewrite resultLine_of_eq. intros Hrun.
  apply RunExploration_from_fixed_columns in Hrun; simpl in *.
  - destruct Hrun as (-> & rows & -> & Hrows). split; [done|]. by exists rows.
  - by rewrite RecordSortedKeys_nil.
Qed.

(** Records without a field leave [outputVars] empty: the test at line 264
    holds again at the next input set and the header is sent again. *)
Lemma RunExploration_from_empty_records inputSets : ∀ i l,
  outputVars l = [] →
  (∀ j inputSet, inputSets !! j = Some inputSet →
     RunBlackBoxCmd json_Marshal json_Unmarshal exec (i + j) progPath varNames inputSet
     = Ret (∅, None)) →
  RunExploration_from i inputSets l
  = ({| outputVars := [];
        sent := sent l ++ flat_map (λ inputSet, [SentHeader varNames; SentData inputSet])
                            inputSets;
        invoked := invoked l ++ inputSets |}, Ret None).
Proof.
  induction inputSets as [|inputSet inputSets IH]; intros i l Hvars Hempty; simpl.
  - rewrite !app_nil_r. destruct l; simpl in *. by subst.
  - unfold iteration. specialize (Hempty 0 inputSet eq_refl) as Hrun.
    rewrite Nat.add_0_r in Hrun. rewrite Hrun. simpl. rewrite Hvars. simpl.
    assert (RecordSortedKeys ∅ = []) as Hkeys by (by apply RecordSortedKeys_nil).
    rewrite Hkeys.
    rewrite resultLine_of_eq. simpl. rewrite !app_nil_r.
    rewrite IH; simpl; [|done|].
    + by rewrite <- !app_assoc.
    + intros j t Hj. specialize (Hempty (S j) t Hj).
      by replace (i + S j) with (S i + j) in Hempty by lia.
Qed.

End RunExploration.

Example RunExploration_sums :
  RunExploration flat_Marshal flat_Unmarshal
    (scripted [prints (encode_object [("sum", "3"); ("product", "2")]);
               prints (encode_object [("sum", "4")])])
    "adapter" ["x"; "y"] [["1"; "2"]; ["1"; "3"]]
  = ({| outputVars := ["product"; "sum"];
        sent := [SentHeader ["x"; "y"; "product"; "sum"];
                 SentData ["1"; "2"; "2"; "3"];
                 SentData ["1"; "3"; ""; "4"]];
        invoked := [["1"; "2"]; ["1"; "3"]] |}, Ret None).
Proof. vm_compute. reflexivity. Qed.

(** *** Claims about [RunExploration] *)

(** C4, at an input where the source departs from it: two input sets, a
    program that prints an empty object each time.  The header is sent
    before each of the two result lines. *)
Theorem RunExploration_header_twice :
  RunExploration flat_Marshal flat_Unmarshal (scripted [prints "{}"; prints "{}"])
    "adapter" ["x"] [["1"]; ["2"]]
  = ({| outputVars := [];
        sent := [SentHeader ["x"]; SentData ["1"]; SentHeader ["x"]; SentData ["2"]];
        invoked := [["1"]; ["2"]] |}, Ret None).
Proof. vm_compute. reflexivity. Qed.

(** C5, at an input where the source departs from it: the first record has
    no field and the second has the field [a].  The second result line
    carries the value of [a], a column that the first record does not
    have, after a second header that names it. *)
Theorem RunExploration_columns_change :
  RunExploration flat_Marshal flat_Unmarshal
    (scripted [prints "{}"; prints (encode_object [("a", "1")])])
    "adapter" ["x"] [["1"]; ["2"]]
  = ({| outputVars := ["a"];
        sent := [SentHeader ["x"]; SentData ["1"];
                 SentHeader ["x"; "a"]; SentData ["2"; "1"]];
        invoked := [["1"]; ["2"]] |}, Ret None)
  ∧ RecordSortedKeys (flat_Unmarshal "{}").1 = [].
Proof. split; vm_compute; reflexivity. Qed.

(** C6: when the invocation for an input set fails, after invocations that
    all succeeded, [RunExploration] returns that error; the input sets
    after it are not handed to [RunBlackBoxCmd], and the rows sent are the
    rows that the run over the input sets before it sends. *)
Theorem RunExploration_stops_at_failure json_Marshal json_Unmarshal exec
    progPath varNames before inputSet after outputMap err :
  (∀ i t, before !! i = Some t →
     succeeds json_Marshal json_Unmarshal exec progPath varNames i t) →
  RunBlackBoxCmd json_Marshal json_Unmarshal exec
    (length before) progPath varNames inputSet = Ret (outputMap, Some err) →
  ∃ l,
    RunExploration json_Marshal json_Unmarshal exec progPath varNames before
    = (l, Ret None)
    ∧ RunExploration json_Marshal json_Unmarshal exec progPath varNames
        (before ++ inputSet :: after)
      = ({| outputVars := outputVars l; sent := sent l;
            invoked := before ++ [inputSet] |}, Ret (Some err)).
Proof.
  intros Hok Hfail. unfold RunExploration.
  destruct (RunExploration_from_prefix json_Marshal json_Unmarshal exec
              progPath varNames before 0
              {| outputVars := []; sent := []; invoked := [] |} Hok)
    as (l & Hrun & Hinvoked & Hrest).
  exists l. split; [done|]. rewrite Hrest. simpl.
  rewrite (iteration_fails _ _ _ _ _ _ _ _ _ _ Hfail).
  by rewrite Hinvoked.
Qed.

Lemma RunExploration_stops_at_failure_witness :
  let exec := scripted [prints (encode_object [("sum", "3")]); prints "sum=4";
                        prints (encode_object [("sum", "5")])] in
  let run := RunExploration flat_Marshal flat_Unmarshal exec "adapter" ["x"; "y"] in
  (∀ i t, [["1"; "2"]] !! i = Some t →
     succeeds flat_Marshal flat_Unmarshal exec "adapter" ["x"; "y"] i t)
  ∧ RunBlackBoxCmd flat_Marshal flat_Unmarshal exec 1 "adapter"
      ["x"; "y"] ["1"; "3"]
    = Ret (∅, Some "invalid character 's' looking for beginning of value")
  ∧ ∃ l,
      run [["1"; "2"]] = (l, Ret None)
      ∧ run ([["1"; "2"]] ++ ["1"; "3"] :: [["1"; "4"]])
        = ({| outputVars := outputVars l; sent := sent l;
              invoked := [["1"; "2"]] ++ [["1"; "3"]] |},
           Ret (Some "invalid character 's' looking for beginning of value")).
Proof.
  assert (Hok : ∀ i t, [["1"; "2"]] !! i = Some t →
            succeeds flat_Marshal flat_Unmarshal
              (scripted [prints (encode_object [("sum", "3")]); prints "sum=4";
                         prints (encode_object [("sum", "5")])])
              "adapter" ["x"; "y"] i t).
  { intros [|i] t Ht; [|done]. injection Ht as <-.
    exists (<["sum" := "3"]> ∅). vm_compute. reflexivity. }
  assert (Hfail : RunBlackBoxCmd flat_Marshal flat_Unmarshal
            (scripted [prints (encode_object [("sum", "3")]); prints "sum=4";
                       prints (encode_object [("sum", "5")])])
            1 "adapter" ["x"; "y"] ["1"; "3"]
          = Ret (∅, Some "invalid character 's' looking for beginning of value")).
  { vm_compute. reflexivity. }
  split; [exact Hok|]. split; [exact Hfail|].
  exact (RunExploration_stops_at_failure flat_Marshal flat_Unmarshal _
           "adapter" ["x"; "y"] [["1"; "2"]] ["1"; "3"] [["1"; "4"]] _ _
           Hok Hfail).
Defined.

End Driver.

(** ** From the setup rows to the invocations

    In [main] the input sets handed to [RunExploration] are
    [GetInputSets exampleSets], with [varNames] and [exampleSets] the two
    slices that [GetVarsExamplesSets] returns: every input set is then as
    long as [varNames], and building the request does not panic. *)

Module Pipeline.

Import Comb Parser Invoker.

Lemma GetVarsExamplesSets_from_lengths setupRows : ∀ i vars examplesSets r,
  length vars = length examplesSets →
  GetVarsExamplesSets_from i setupRows vars examplesSets = Ret r →
  length r.1.1 = length r.1.2.
Proof.
  induction setupRows as [|setupRow setupRows IH];
    intros i vars examplesSets r Hlen; simpl.
  - by intros [= <-].
  - destruct (setupRow !! 0) as [varCell|]; [|done].
    destruct (setupRow !! 1) as [examplesCell|]; [|done].
    repeat case_decide; try by intros [= <-].
    apply IH. rewrite !length_app. simpl. lia.
Qed.

Lemma request_is_built setupRows varNames exampleSets err inputSet :
  GetVarsExamplesSets setupRows = Ret (varNames, exampleSets, err) →
  inputSet ∈ GetInputSets exampleSets →
  length inputSet = length varNames
  ∧ ∃ inputMap, fill_inputMap 0 varNames inputSet ∅ = Ret inputMap.
Proof.
  intros Hparse Hin.
  apply GetVarsExamplesSets_from_lengths in Hparse; [|done]. simpl in Hparse.
  assert (Hlen : length inputSet = length varNames).
  { destruct exampleSets as [|head tail]; [by apply elem_of_nil in Hin|].
    rewrite GetInputSets_row_major in Hin by done.
    apply row_major_elem_of, in_product_length in Hin. congruence. }
  split; [done|]. apply fill_inputMap_returns. lia.
Qed.

End Pipeline.

(** ** Strings as lists of bytes

    The facts about [strings.Trim] and [strings.Split] that the parser's
    properties rest on, stated on the list of the bytes of a string. *)

Module Text.

Import Parser.

Abbreviation chars := list_ascii_of_string.

(** What [TrimLeft] does to the bytes: it skips the longest prefix made of
    bytes of the cutset. *)
Fixpoint skip (cutset l : list ascii) : list ascii :=
  match l with
  | [] => []
  | c :: l' => if bool_decide (c ∈ cutset) then skip cutset l' else l
  end.

Definition trimmed (cutset l : list ascii) : list ascii :=
  reverse (skip cutset (reverse (skip cutset l))).

(** A string that begins and ends outside the cutset, or is empty. *)
Definition tight (cutset l : list ascii) : Prop :=
  (∀ c, head l = Some c → c ∉ cutset) ∧ (∀ c, last l = Some c → c ∉ cutset).

Lemma chars_inj s1 s2 : chars s1 = chars s2 → s1 = s2.
Proof.
  intros H. rewrite <- (string_of_list_ascii_of_string s1),
    <- (string_of_list_ascii_of_string s2). by rewrite H.
Qed.

Lemma chars_app s1 s2 : chars (s1 +:+ s2) = chars s1 ++ chars s2.
Proof.
  unfold String.app. induction s1 as [|c s1 IH]; simpl; [done|]. by rewrite IH.
Qed.

Lemma chars_nil s : chars s = [] ↔ s = "".
Proof. by destruct s. Qed.

Lemma chars_rev_app s1 s2 :
  chars (String.rev_app s1 s2) = reverse (chars s1) ++ chars s2.
Proof.
  revert s2. induction s1 as [|c s1 IH]; intros s2; simpl; [done|].
  rewrite IH, reverse_cons. simpl. by rewrite <- app_assoc.
Qed.

Lemma chars_rev s : chars (String.rev s) = reverse (chars s).
Proof. unfold String.rev. rewrite chars_rev_app. simpl. by rewrite app_nil_r. Qed.

Lemma chars_TrimLeft cutset s : chars (TrimLeft cutset s) = skip cutset (chars s).
Proof.
  induction s as [|c s IH]; simpl; [done|]. by case_bool_decide.
Qed.

Lemma chars_Trim s cutset : chars (Trim s cutset) = trimmed cutset (chars s).
Proof.
  unfold Trim, TrimRight, trimmed.
  by rewrite chars_rev, chars_TrimLeft, chars_rev, chars_TrimLeft.
Qed.

(** *** Skipping a prefix *)

Lemma skip_split cutset l :
  ∃ pre, l = pre ++ skip cutset l ∧ Forall (λ c, c ∈ cutset) pre.
Proof.
  induction l as [|c l (pre & Hl & Hpre)]; simpl.
  - by exists [].
  - case_bool_decide.
    + exists (c :: pre). split; [by rewrite Hl at 1|by constructor].
    + by exists [].
Qed.

Lemma skip_head cutset l c : head (skip cutset l) = Some c → c ∉ cutset.
Proof.
  induction l as [|c' l IH]; simpl; [done|].
  case_bool_decide; [done|]. by intros [= <-].
Qed.

Lemma skip_prefix cutset pre l :
  Forall (λ c, c ∈ cutset) pre → skip cutset (pre ++ l) = skip cutset l.
Proof.
  induction 1 as [|c pre Hc _ IH]; simpl; [done|]. by rewrite bool_decide_true.
Qed.

Lemma skip_fixed cutset l :
  (∀ c, head l = Some c → c ∉ cutset) → skip cutset l = l.
Proof.
  destruct l as [|c l]; simpl; [done|]. intros Hhead.
  by rewrite bool_decide_false by by apply Hhead.
Qed.

Lemma skip_nil cutset l : skip cutset l = [] ↔ Forall (λ c, c ∈ cutset) l.
Proof.
  split.
  - intros Hskip. destruct (skip_split cutset l) as (pre & Hl & Hpre).
    rewrite Hskip, app_nil_r in Hl. by subst.
  - intros Hl. rewrite <- (app_nil_r l). by rewrite skip_prefix.
Qed.

(** *** Trimming both ends *)

Lemma trimmed_split cutset l :
  ∃ pre post,
    l = pre ++ trimmed cutset l ++ post
    ∧ Forall (λ c, c ∈ cutset) pre ∧ Forall (λ c, c ∈ cutset) post.
Proof.
  unfold trimmed.
  destruct (skip_split cutset l) as (pre & Hl & Hpre).
  destruct (skip_split cutset (reverse (skip cutset l))) as (post & Hrev & Hpost).
  exists pre, (reverse post). split_and!; [|done|by apply Forall_reverse].
  rewrite Hl at 1. f_equal.
  apply (f_equal reverse) in Hrev.
  by rewrite reverse_involutive, reverse_app in Hrev.
Qed.

Lemma trimmed_tight cutset l : tight cutset (trimmed cutset l).
Proof.
  unfold tight, trimmed. split; intros c Hc.
  - destruct (skip_split cutset (reverse (skip cutset l))) as (post & Hrev & _).
    destruct (skip cutset (reverse (skip cutset l))) as [|c' k] eqn:Hk; [done|].
    apply (skip_head cutset l).
    apply (f_equal reverse) in Hrev.
    rewrite reverse_involutive, reverse_app in Hrev. rewrite Hrev.
    rewrite head_app. by rewrite Hc.
  - rewrite last_reverse in Hc. by apply skip_head in Hc.
Qed.

Lemma trimmed_padded cutset pre core post :
  Forall (λ c, c ∈ cutset) pre → Forall (λ c, c ∈ cutset) post →
  tight cutset core →
  trimmed cutset (pre ++ core ++ post) = core.
Proof.
  intros Hpre Hpost [Hhead Hlast]. unfold trimmed.
  rewrite skip_prefix by done.
  destruct core as [|c core].
  { simpl. assert (skip cutset post = []) as -> by by apply skip_nil.
    done. }
  rewrite (skip_fixed cutset ((c :: core) ++ post)) by (simpl; apply Hhead).
  rewrite reverse_app, skip_prefix by by apply Forall_reverse.
  rewrite skip_fixed; [by rewrite reverse_involutive|].
  intros c' Hc'. apply Hlast. by rewrite <- head_reverse.
Qed.

Lemma trimmed_nil cutset l : trimmed cutset l = [] ↔ Forall (λ c, c ∈ cutset) l.
Proof.
  split.
  - intros Hnil. destruct (trimmed_split cutset l) as (pre & post & Hl & Hpre & Hpost).
    rewrite Hnil in Hl. rewrite Hl. apply Forall_app. by split.
  - intros Hl. rewrite <- (app_nil_r l).
    by apply (trimmed_padded cutset l [] []).
Qed.

Lemma Trim_empty s cutset :
  Trim s cutset = "" ↔ Forall (λ c, c ∈ cutset) (chars s).
Proof. rewrite <- trimmed_nil, <- chars_Trim. symmetry. apply chars_nil. Qed.

End Text.

(** ** What the parser makes of a cell *)

Module ParserFacts.

Import Parser Text.

(** [strings.Join(fields, ",")], the inverse of [strings.Split]. *)
Definition Join (fields : list string) (sep : ascii) : string :=
  String.concat (String sep EmptyString) fields.

Lemma Split_nonempty s sep : Split s sep ≠ [].
Proof.
  destruct s as [|c s]; simpl; [done|].
  case_bool_decide; [done|]. by destruct (Split s sep).
Qed.

Lemma Split_free x sep : sep ∉ chars x → Split x sep = [x].
Proof.
  induction x as [|c x IH]; simpl; [done|]. intros Hfree.
  rewrite bool_decide_false by (intros ->; apply Hfree; by left).
  rewrite IH; [done|]. intros Hin. apply Hfree. by right.
Qed.

Lemma Split_app x sep rest :
  sep ∉ chars x → Split (x +:+ String sep rest) sep = x :: Split rest sep.
Proof.
  unfold String.app. induction x as [|c x IH]; simpl; intros Hfree.
  - by rewrite bool_decide_true.
  - rewrite bool_decide_false by (intros ->; apply Hfree; by left).
    rewrite IH; [done|]. intros Hin. apply Hfree. by right.
Qed.

Lemma Split_Join fields sep :
  fields ≠ [] → Forall (λ field, sep ∉ chars field) fields →
  Split (Join fields sep) sep = fields.
Proof.
  unfold Join. induction fields as [|field fields IH]; [done|]. intros _ Hfree.
  apply Forall_cons in Hfree as [Hfield Hfree].
  destruct fields as [|field' fields].
  - simpl. by apply Split_free.
  - change (String.concat (String sep "") (field :: field' :: fields))
      with (field +:+ String sep (String.concat (String sep "") (field' :: fields))).
    rewrite Split_app by done. f_equal. by apply IH.
Qed.

Lemma Split_fields_free s sep : Forall (λ field, sep ∉ chars field) (Split s sep).
Proof.
  induction s as [|c s IH]; simpl.
  - repeat constructor. apply not_elem_of_nil.
  - case_bool_decide.
    + constructor; [apply not_elem_of_nil|done].
    + destruct (Split s sep) as [|field fields]; simpl.
      * repeat constructor. by intros [->|?%elem_of_nil]%elem_of_cons.
      * apply Forall_cons in IH as [Hfield Hfields]. constructor; [|done].
        simpl. by intros [->|?]%elem_of_cons.
Qed.

Lemma Join_cons field field' fields sep :
  Join (field :: field' :: fields) sep
  = field +:+ String sep (Join (field' :: fields) sep).
Proof. reflexivity. Qed.

Lemma Join_Split s sep : Join (Split s sep) sep = s.
Proof.
  induction s as [|c s IH]; simpl; [done|].
  pose proof (Split_nonempty s sep) as Hne.
  destruct (Split s sep) as [|field fields]; [done|].
  case_bool_decide.
  - rewrite Join_cons, IH. by subst.
  - destruct fields as [|field' fields].
    + unfold Join in *. simpl in *. by rewrite IH.
    + rewrite Join_cons. rewrite Join_cons in IH. by rewrite <- IH.
Qed.

Lemma Join_infix fields sep field :
  field ∈ fields →
  ∃ pre post, chars (Join fields sep) = pre ++ chars field ++ post.
Proof.
  induction fields as [|field0 fields IH]; [by intros ?%elem_of_nil|].
  destruct fields as [|field' fields].
  - intros ->%list_elem_of_singleton. exists [], []. by rewrite app_nil_r.
  - rewrite Join_cons, chars_app. intros [->|Hin]%elem_of_cons.
    + by exists [], (chars (String sep (Join (field' :: fields) sep))).
    + destruct (IH Hin) as (pre & post & Hjoin).
      exists (chars field0 ++ sep :: pre), post.
      simpl. rewrite Hjoin. by rewrite <- app_assoc.
Qed.

Lemma Split_infix s sep field :
  field ∈ Split s sep → ∃ pre post, chars s = pre ++ chars field ++ post.
Proof.
  intros Hin. destruct (Join_infix _ sep _ Hin) as (pre & post & Hjoin).
  exists pre, post. by rewrite Join_Split in Hjoin.
Qed.

(** *** [ExtractExamples] *)

Definition comma : ascii := ","%char.

(** [field] is [core] between two runs of spaces and tabs. *)
Definition padded (core field : string) : Prop :=
  ∃ pre post,
    chars field = pre ++ chars core ++ post
    ∧ Forall (λ c, c ∈ space_tab) pre ∧ Forall (λ c, c ∈ space_tab) post.

Lemma ExtractExamples_eq examplesCell :
  ExtractExamples examplesCell
  = filter (λ example, example ≠ "")
      ((λ field, Trim field space_tab) <$> Split examplesCell ",").
Proof.
  unfold ExtractExamples.
  enough (∀ fields examples,
            foldl (λ examples example,
                     let trimmed := Trim example space_tab in
                     if decide (trimmed ≠ "") then examples ++ [trimmed]
                     else examples) examples fields
            = examples ++ filter (λ example, example ≠ "")
                            ((λ field, Trim field space_tab) <$> fields))
    as H by apply H.
  induction fields as [|field fields IH]; intros examples; simpl.
  - by rewrite app_nil_r.
  - rewrite IH, filter_cons. case_decide; [|done]. by rewrite <- app_assoc.
Qed.

Lemma Trim_padded core field :
  padded core field → tight space_tab (chars core) →
  Trim field space_tab = core.
Proof.
  intros (pre & post & Hfield & Hpre & Hpost) Htight. apply chars_inj.
  rewrite chars_Trim, Hfield. by apply trimmed_padded.
Qed.

Lemma ExtractExamples_elem examplesCell example :
  example ∈ ExtractExamples examplesCell →
  example ≠ ""
  ∧ (comma ∉ chars example)
  ∧ tight space_tab (chars example)
  ∧ ∃ pre post, chars examplesCell = pre ++ chars example ++ post.
Proof.
  rewrite ExtractExamples_eq.
  intros [Hne (field & -> & Hfield)%list_elem_of_fmap]%list_elem_of_filter.
  destruct (trimmed_split space_tab (chars field)) as (pre & post & Hsplit & _ & _).
  rewrite <- chars_Trim in Hsplit. split_and!.
  - done.
  - pose proof (Split_fields_free examplesCell ",") as Hfree.
    rewrite Forall_forall in Hfree. intros Hin. apply (Hfree _ Hfield).
    rewrite Hsplit. rewrite !elem_of_app. auto.
  - rewrite chars_Trim. apply trimmed_tight.
  - destruct (Split_infix _ _ _ Hfield) as (pre' & post' & ->).
    exists (pre' ++ pre), (post ++ post'). rewrite Hsplit.
    by rewrite <- !app_assoc.
Qed.

(** X1: Every example taken from a cell is a piece of the cell that is not
    empty, holds no comma, and neither begins nor ends with a space or a
    tab. *)
Theorem ExtractExamples_examples examplesCell example :
  example ∈ ExtractExamples examplesCell →
  example ≠ ""
  ∧ (comma ∉ chars example)
  ∧ tight space_tab (chars example)
  ∧ ∃ pre post, chars examplesCell = pre ++ chars example ++ post.
Proof. apply ExtractExamples_elem. Qed.

Lemma ExtractExamples_examples_witness :
  "b c" ∈ ExtractExamples " a, b c ,"
  ∧ "b c" ≠ ""
  ∧ (comma ∉ chars "b c")
  ∧ tight space_tab (chars "b c")
  ∧ ∃ pre post, chars " a, b c ," = pre ++ chars "b c" ++ post.
Proof.
  assert (Hin : "b c" ∈ ExtractExamples " a, b c ,").
  { vm_compute. apply list_elem_of_further, list_elem_of_here. }
  split; [exact Hin|].
  exact (ExtractExamples_examples " a, b c ," "b c" Hin).
Defined.

Lemma filter_nonempty_nil (examples : list string) :
  filter (λ example, example ≠ "") examples = []
  ↔ Forall (λ example, example = "") examples.
Proof.
  induction examples as [|example examples IH]; [done|].
  rewrite filter_cons, Forall_cons. case_decide as Hexample.
  - split; [done|]. by intros [? _].
  - rewrite IH. by split; [|intros [_ ?]].
Qed.

Lemma Split_blank s :
  Forall (λ field, Forall (λ c, c ∈ space_tab) (chars field)) (Split s comma)
  ↔ Forall (λ c, c = comma ∨ c ∈ space_tab) (chars s).
Proof.
  induction s as [|c s IH]; simpl.
  - split; [by constructor|]. by repeat constructor.
  - pose proof (Split_nonempty s comma) as Hne.
    rewrite Forall_cons, <- IH. case_bool_decide.
    + rewrite Forall_cons. simpl. split.
      * intros [_ Hs]. split; [by left|done].
      * intros [_ Hs]. split; [constructor|done].
    + destruct (Split s comma) as [|field fields]; [done|].
      rewrite !Forall_cons. simpl. rewrite Forall_cons. split.
      * intros [[Hc Hfield] Hfields]. by split; [right|].
      * intros [[->|Hc] [Hfield Hfields]]; [done|]. by split.
Qed.

(** X2: A cell yields no example exactly when it holds nothing but commas,
    spaces and tabs: those are the cells that [GetVarsExamplesSets]
    rejects. *)
Theorem ExtractExamples_nil examplesCell :
  ExtractExamples examplesCell = []
  ↔ Forall (λ c, c = comma ∨ c ∈ space_tab) (chars examplesCell).
Proof.
  rewrite ExtractExamples_eq, filter_nonempty_nil, Forall_fmap.
  rewrite <- Split_blank. apply Forall_iff. intros field. apply Trim_empty.
Qed.

Lemma comma_not_blank c : c ∈ space_tab → c ≠ comma.
Proof.
  unfold space_tab.
  intros [->|[->|?%elem_of_nil]%elem_of_cons]%elem_of_cons; done.
Qed.

Lemma padded_free core field :
  padded core field → comma ∉ chars core → comma ∉ chars field.
Proof.
  intros (pre & post & -> & Hpre & Hpost) Hfree.
  rewrite Forall_forall in Hpre, Hpost. rewrite !elem_of_app.
  intros [Hin|[Hin|Hin]]; [|done|].
  - by apply Hpre, comma_not_blank in Hin.
  - by apply Hpost, comma_not_blank in Hin.
Qed.

Lemma padded_fields_free cores fields :
  Forall2 padded cores fields →
  Forall (λ core, (comma ∉ chars core) ∧ tight space_tab (chars core)) cores →
  Forall (λ field, comma ∉ chars field) fields.
Proof.
  induction 1 as [|core field cores fields Hpad _ IH]; intros Hcores; [done|].
  apply Forall_cons in Hcores as [[Hfree _] Hcores].
  constructor; [by eapply padded_free|by apply IH].
Qed.

Lemma padded_fields_Trim cores fields :
  Forall2 padded cores fields →
  Forall (λ core, (comma ∉ chars core) ∧ tight space_tab (chars core)) cores →
  (λ field, Trim field space_tab) <$> fields = cores.
Proof.
  induction 1 as [|core field cores fields Hpad _ IH]; intros Hcores; [done|].
  apply Forall_cons in Hcores as [[_ Htight] Hcores].
  rewrite fmap_cons, (Trim_padded core) by done. f_equal. by apply IH.
Qed.

(** X3: Reading back a written cell: fields joined by commas, each a core
    between spaces and tabs, give back the cores that are not empty, in
    order. *)
Theorem ExtractExamples_Join cores fields :
  Forall2 padded cores fields →
  Forall (λ core, (comma ∉ chars core) ∧ tight space_tab (chars core)) cores →
  ExtractExamples (Join fields comma) = filter (λ core, core ≠ "") cores.
Proof.
  intros Hpadded Hcores. rewrite ExtractExamples_eq.
  pose proof (padded_fields_Trim _ _ Hpadded Hcores) as Htrim.
  pose proof (padded_fields_free _ _ Hpadded Hcores) as Hfree.
  destruct fields as [|field fields].
  { apply Forall2_nil_inv_r in Hpadded as ->. reflexivity. }
  by rewrite (Split_Join _ comma), Htrim.
Qed.

Lemma ExtractExamples_Join_witness :
  let cores := ["1"; ""; "b c"] in
  let fields := [" 1"; "  "; "b c" +:+ String "009"%char ""] in
  Forall2 padded cores fields
  ∧ Forall (λ core, (comma ∉ chars core) ∧ tight space_tab (chars core)) cores
  ∧ ExtractExamples (Join fields comma) = ["1"; "b c"].
Proof.
  assert (Hpad : Forall2 padded ["1"; ""; "b c"]
                   [" 1"; "  "; "b c" +:+ String "009"%char ""]).
  { repeat constructor.
    - exists [" "%char], []. split_and!; [done| |done].
      repeat constructor.
    - exists [" "%char; " "%char], []. split_and!; [done| |done].
      repeat constructor.
    - exists [], ["009"%char]. split_and!; [done|done|].
      constructor; [|done]. apply list_elem_of_further, list_elem_of_here. }
  assert (Hcores : Forall (λ core, (comma ∉ chars core)
                                   ∧ tight space_tab (chars core))
                     ["1"; ""; "b c"]).
  { repeat constructor; simpl; try (intros c [= <-]);
      by (intros Hin; repeat (apply elem_of_cons in Hin as [?|Hin]);
          try by apply elem_of_nil in Hin). }
  split; [exact Hpad|]. split; [exact Hcores|].
  exact (ExtractExamples_Join _ _ Hpad Hcores).
Defined.

(** *** [GetVarsExamplesSets] *)

(** The name and the examples that the loop takes from a row; a missing
    cell reads as the empty string here, the loop itself panics on it. *)
Definition name_of (setupRow : list string) : string :=
  Trim (default "" (setupRow !! 0)) tab_space_newline.

Definition examples_of (setupRow : list string) : list string :=
  ExtractExamples (default "" (setupRow !! 1)).

(** The message for a row of two cells that the loop does not pass. *)
Definition complaint (i : nat) (setupRow : list string) : error :=
  if decide (name_of setupRow = "")
  then "Could not extract var name from row " +:+ decimal (Z.of_nat i)
  else "Could not extract examples from row " +:+ decimal (Z.of_nat i).

Lemma passes_spec setupRow :
  passes setupRow
  ↔ 2 ≤ length setupRow ∧ name_of setupRow ≠ "" ∧ examples_of setupRow ≠ [].
Proof.
  unfold passes, name_of, examples_of. split.
  - intros (varCell & examplesCell & H0 & H1 & Hname & Hexamples).
    rewrite H0, H1. split_and!; [|done..].
    apply lookup_lt_Some in H1. lia.
  - intros (Hlen & Hname & Hexamples).
    destruct setupRow as [|varCell [|examplesCell cells]]; simpl in *; [lia..|].
    exists varCell, examplesCell. by split_and!.
Qed.

Lemma GetVarsExamplesSets_from_passed passed : ∀ i setupRows vars examplesSets,
  Forall passes passed →
  GetVarsExamplesSets_from i (passed ++ setupRows) vars examplesSets
  = GetVarsExamplesSets_from (i + length passed) setupRows
      (vars ++ (name_of <$> passed)) (examplesSets ++ (examples_of <$> passed)).
Proof.
  induction passed as [|setupRow passed IH];
    intros i setupRows vars examplesSets Hpass; simpl.
  - by rewrite Nat.add_0_r, !app_nil_r.
  - apply Forall_cons in Hpass as [Hrow Hpass].
    destruct Hrow as (varCell & examplesCell & H0 & H1 & Hname & Hexamples).
    unfold name_of, examples_of. rewrite H0, H1. simpl.
    rewrite decide_False by done.
    rewrite decide_False by (by destruct (ExtractExamples examplesCell)).
    rewrite IH by done. rewrite <- !app_assoc. simpl. f_equal. lia.
Qed.

(** The rows split at the first row that the loop does not pass. *)
Lemma first_rejected setupRows :
  Forall passes setupRows
  ∨ ∃ passed setupRow rest,
      setupRows = passed ++ setupRow :: rest
      ∧ Forall passes passed ∧ ¬ passes setupRow.
Proof.
  induction setupRows as [|setupRow setupRows IH]; [by left|].
  destruct (decide (2 ≤ length setupRow ∧ name_of setupRow ≠ ""
                    ∧ examples_of setupRow ≠ [])) as [Hrow|Hrow];
    rewrite <- passes_spec in Hrow.
  - destruct IH as [Hall|(passed & row & rest & -> & Hpassed & Hrej)].
    + left. by constructor.
    + right. exists (setupRow :: passed), row, rest. split_and!; [done| |done].
      by constructor.
  - right. exists [], setupRow, setupRows. by split_and!.
Qed.

Lemma GetVarsExamplesSets_success setupRows vars examplesSets :
  GetVarsExamplesSets setupRows = Ret (vars, examplesSets, None)
  ↔ Forall passes setupRows
    ∧ vars = name_of <$> setupRows
    ∧ examplesSets = examples_of <$> setupRows.
Proof.
  unfold GetVarsExamplesSets. split.
  - intros Hrun. destruct (first_rejected setupRows)
      as [Hall|(passed & row & rest & -> & Hpassed & Hrej)].
    + rewrite <- (app_nil_r setupRows) in Hrun.
      rewrite GetVarsExamplesSets_from_passed in Hrun by done.
      simpl in Hrun. by injection Hrun as <- <-.
    + rewrite GetVarsExamplesSets_from_passed in Hrun by done.
      simpl in Hrun. exfalso. apply Hrej.
      destruct (row !! 0) as [varCell|] eqn:H0; [|done].
      destruct (row !! 1) as [examplesCell|] eqn:H1; [|done].
      repeat case_decide; try done.
      exists varCell, examplesCell. split_and!; [done..|].
      by destruct (ExtractExamples examplesCell).
  - intros (Hall & -> & ->). rewrite <- (app_nil_r setupRows) at 1.
    by rewrite GetVarsExamplesSets_from_passed.
Qed.

(** X4: [GetVarsExamplesSets] succeeds exactly on the rows that all pass, and
    then returns, row by row, the trimmed name and the examples of the
    second cell; cells after the second are not looked at. *)
Theorem GetVarsExamplesSets_accepts setupRows vars examplesSets :
  GetVarsExamplesSets setupRows = Ret (vars, examplesSets, None)
  ↔ Forall passes setupRows
    ∧ vars = name_of <$> setupRows
    ∧ examplesSets = examples_of <$> setupRows.
Proof. apply GetVarsExamplesSets_success. Qed.

(** X5: The first row that does not pass, when it has its two cells, stops
    the loop: the error names its index, counted from 0, the name taking
    precedence over the examples, and the slices returned hold the rows
    before it. *)
Theorem GetVarsExamplesSets_rejects passed setupRow rest :
  Forall passes passed → 2 ≤ length setupRow → ¬ passes setupRow →
  GetVarsExamplesSets (passed ++ setupRow :: rest)
  = Ret (name_of <$> passed, examples_of <$> passed,
         Some (complaint (length passed) setupRow)).
Proof.
  intros Hpassed Hlen Hrej. unfold GetVarsExamplesSets.
  rewrite GetVarsExamplesSets_from_passed by done. simpl.
  rewrite passes_spec in Hrej. unfold complaint, name_of, examples_of in *.
  destruct setupRow as [|varCell [|examplesCell cells]]; simpl in *; [lia..|].
  case_decide; [done|]. case_decide; [done|].
  exfalso. apply Hrej. split_and!; [lia|done|].
  by destruct (ExtractExamples examplesCell).
Qed.

Lemma GetVarsExamplesSets_rejects_witness :
  Forall passes [["x"; "1,2"]] ∧ 2 ≤ length [" "; ","]
  ∧ ¬ passes [" "; ","]
  ∧ GetVarsExamplesSets ([["x"; "1,2"]] ++ [" "; ","] :: [["z"]])
    = Ret (["x"], [["1"; "2"]], Some "Could not extract var name from row 1").
Proof.
  assert (Hpassed : Forall passes [["x"; "1,2"]]).
  { repeat constructor. apply passes_spec. by split_and!; [simpl; lia|..]. }
  assert (Hrej : ¬ passes [" "; ","]).
  { rewrite passes_spec. by intros (_ & Hname & _). }
  split; [exact Hpassed|]. split; [simpl; lia|]. split; [exact Hrej|].
  apply (GetVarsExamplesSets_rejects [["x"; "1,2"]] [" "; ","] [["z"]]);
    [exact Hpassed|simpl; lia|exact Hrej].
Defined.

(** X6: What the stages after the parser can rely on: the names returned are
    not empty and carry no tab, space or newline at either end, and every
    example set holds an example at least, each example not empty, without
    a comma, without a space or a tab at either end.  Nothing makes the
    names different from one another. *)
Theorem GetVarsExamplesSets_validated setupRows vars examplesSets :
  GetVarsExamplesSets setupRows = Ret (vars, examplesSets, None) →
  length vars = length setupRows
  ∧ length examplesSets = length setupRows
  ∧ Forall (λ name, name ≠ "" ∧ tight tab_space_newline (chars name)) vars
  ∧ Forall (λ examples,
              examples ≠ []
              ∧ Forall (λ example, example ≠ "" ∧ (comma ∉ chars example)
                                   ∧ tight space_tab (chars example)) examples)
           examplesSets.
Proof.
  intros Hrun.
  destruct (first_rejected setupRows)
    as [Hall|(passed & row & rest & -> & Hpassed & Hrej)].
  - unfold GetVarsExamplesSets in Hrun.
    rewrite <- (app_nil_r setupRows) in Hrun.
    rewrite GetVarsExamplesSets_from_passed in Hrun by done.
    simpl in Hrun. injection Hrun as <- <-. rewrite !length_fmap.
    split_and!; [done|done| |].
    + apply Forall_fmap. eapply Forall_impl; [exact Hall|].
      intros setupRow (_ & Hname & _)%passes_spec. split; [done|].
      unfold name_of. rewrite chars_Trim. apply trimmed_tight.
    + apply Forall_fmap. eapply Forall_impl; [exact Hall|].
      intros setupRow (_ & _ & Hexamples)%passes_spec. split; [done|].
      apply Forall_forall. intros example Hin.
      by apply ExtractExamples_elem in Hin as (? & ? & ? & _).
  - exfalso. unfold GetVarsExamplesSets in Hrun.
    rewrite GetVarsExamplesSets_from_passed in Hrun by done.
    simpl in Hrun. apply Hrej.
    destruct (row !! 0) as [varCell|] eqn:H0; [|done].
    destruct (row !! 1) as [examplesCell|] eqn:H1; [|done].
    repeat case_decide; try done.
    exists varCell, examplesCell. split_and!; [done..|].
    by destruct (ExtractExamples examplesCell).
Qed.

Lemma GetVarsExamplesSets_validated_witness :
  let setupRows := [[" x "; "1, 2"]; ["x"; "a"]] in
  let vars := ["x"; "x"] in
  let examplesSets := [["1"; "2"]; ["a"]] in
  GetVarsExamplesSets setupRows = Ret (vars, examplesSets, None)
  ∧ length vars = length setupRows
  ∧ length examplesSets = length setupRows
  ∧ Forall (λ name, name ≠ "" ∧ tight tab_space_newline (chars name)) vars
  ∧ Forall (λ examples,
              examples ≠ []
              ∧ Forall (λ example, example ≠ "" ∧ (comma ∉ chars example)
                                   ∧ tight space_tab (chars example)) examples)
           examplesSets.
Proof.
  split; [reflexivity|].
  exact (GetVarsExamplesSets_validated [[" x "; "1, 2"]; ["x"; "a"]]
           ["x"; "x"] [["1"; "2"]; ["a"]] eq_refl).
Defined.

End ParserFacts.

(** ** Variable-definition source: [ReadSetupRows] *)

Module Source.

Import Parser ParserFacts.

(** A cell of [resp.Values], an [interface{}]: a string, or a value of
    another dynamic type, on which the assertion [item.(string)] panics. *)
Inductive Item :=
  | StringItem (s : string)
  | OtherItem.

(** [for _, item := range row { stringRow = append(stringRow, item.(string)) }] *)
Fixpoint stringRow_from (row : list Item) (stringRow : list string)
  : Res (list string) :=
  match row with
  | [] => Ret stringRow
  | StringItem s :: row => stringRow_from row (stringRow ++ [s])
  | OtherItem :: row => Panic
  end.

(** [for _, row := range resp.Values { ...; rows = append(rows, stringRow) }] *)
Fixpoint rows_from (values : list (list Item)) (rows : list (list string))
  : Res (list (list string)) :=
  match values with
  | [] => Ret rows
  | row :: values =>
      match stringRow_from row [] with
      | Ret stringRow => rows_from values (rows ++ [stringRow])
      | Panic => Panic
      | Blocked => Blocked
      end
  end.

Section ReadSetupRows.

(** [service.Spreadsheets.Values.Get(spreadsheetID, readRange).Do()]: an
    error, or the values of the range. *)
Variable Get : string → string → error + list (list Item).

Definition ReadSetupRows (spreadsheetID setupSheetName : string)
  : Res (list (list string) * option error) :=
  let readRange := setupSheetName +:+ "!A1:Z" in
  let rows := [] in
  match Get spreadsheetID readRange with
  | inl err => Ret (rows, Some ("Unable to retrieve data from sheet. " +:+ err))
  | inr values =>
      if decide (0 < length values) then
        match rows_from values rows with
        | Ret rows => Ret (rows, None)
        | Panic => Panic
        | Blocked => Blocked
        end
      else Ret (rows, Some "No data found.")
  end.

End ReadSetupRows.

Definition strings_of (row : list string) : list Item := StringItem <$> row.

Lemma stringRow_from_strings row : ∀ stringRow,
  (∃ strings, row = strings_of strings
              ∧ stringRow_from row stringRow = Ret (stringRow ++ strings))
  ∨ (OtherItem ∈ row ∧ stringRow_from row stringRow = Panic).
Proof.
  induction row as [|[s|] row IH]; intros stringRow; simpl.
  - left. exists []. by rewrite app_nil_r.
  - destruct (IH (stringRow ++ [s])) as [(strings & -> & ->)|[Hin ->]].
    + left. exists (s :: strings). by rewrite <- app_assoc.
    + right. split; [by right|done].
  - right. split; [by left|done].
Qed.

Lemma rows_from_strings values : ∀ rows,
  (∃ stringRows, values = strings_of <$> stringRows
                 ∧ rows_from values rows = Ret (rows ++ stringRows))
  ∨ ((∃ row, row ∈ values ∧ OtherItem ∈ row) ∧ rows_from values rows = Panic).
Proof.
  induction values as [|row values IH]; intros rows; simpl.
  - left. exists []. by rewrite app_nil_r.
  - destruct (stringRow_from_strings row []) as [(strings & -> & ->)|[Hin ->]].
    + simpl. destruct (IH (rows ++ [strings])) as [(stringRows & -> & ->)|[Hbad ->]].
      * left. exists (strings :: stringRows). by rewrite <- app_assoc.
      * right. split; [|done]. destruct Hbad as (row & Hrow & Hin).
        exists row. split; [by right|done].
    + right. split; [|done]. exists row. split; [by left|done].
Qed.

#[local] Instance StringItem_inj : Inj (=) (=) StringItem.
Proof. by intros ?? [=]. Qed.

#[local] Instance strings_of_inj : Inj (=) (=) strings_of.
Proof. unfold strings_of. apply _. Qed.

Lemma strings_of_no_other row : OtherItem ∉ strings_of row.
Proof. unfold strings_of. by intros (s & [=] & _)%list_elem_of_fmap. Qed.

(** X7: [ReadSetupRows], once the service has answered with [values]: it
    returns the rows, cell for cell, when there is a row at least and
    every cell is a string; it returns an error when there is no row; it
    panics when a cell is not a string.  Rows keep their lengths: nothing
    pads a row that has fewer than two cells. *)
Theorem ReadSetupRows_outcome Get spreadsheetID setupSheetName values :
  Get spreadsheetID (setupSheetName +:+ "!A1:Z") = inr values →
  let r := ReadSetupRows Get spreadsheetID setupSheetName in
  (∀ rows, r = Ret (rows, None) ↔ values ≠ [] ∧ values = strings_of <$> rows)
  ∧ (∀ rows err, r = Ret (rows, Some err)
                 ↔ values = [] ∧ rows = [] ∧ err = "No data found.")
  ∧ (r = Panic ↔ ∃ row, row ∈ values ∧ OtherItem ∈ row).
Proof.
  intros HGet. unfold ReadSetupRows. rewrite HGet. cbv zeta.
  destruct values as [|row values].
  { rewrite decide_False by (simpl; lia). split_and!.
    - intros rows. split; [done|]. by intros [? _].
    - intros rows err. split; [by intros [= <- <-]|]. by intros (_ & -> & ->).
    - split; [done|]. by intros (row & ?%elem_of_nil & _). }
  rewrite decide_True by (simpl; lia).
  destruct (rows_from_strings (row :: values) [])
    as [(stringRows & Hvalues & ->)|[Hbad ->]]; simpl.
  - split_and!.
    + intros rows. split.
      * intros [= <-]. by split.
      * intros [_ Hrows]. f_equal. f_equal. rewrite Hvalues in Hrows.
        by apply (inj (fmap strings_of)) in Hrows.
    + intros rows err. by split; [|intros [? _]].
    + split; [done|]. intros (bad & Hbad & Hother). rewrite Hvalues in Hbad.
      apply list_elem_of_fmap in Hbad as (strings & -> & _).
      by apply strings_of_no_other in Hother.
  - split_and!.
    + intros rows. split; [done|]. intros [_ Hrows].
      destruct Hbad as (bad & Hbad & Hother). rewrite Hrows in Hbad.
      apply list_elem_of_fmap in Hbad as (strings & -> & _).
      by apply strings_of_no_other in Hother.
    + intros rows err. by split; [|intros [? _]].
    + done.
Qed.

(** A sheet named [inputs] with two rows, the second with a single cell. *)
Definition two_rows (_ readRange : string) : error + list (list Item) :=
  if decide (readRange = "inputs!A1:Z")
  then inr [[StringItem "x"; StringItem "1,2"]; [StringItem "y"]]
  else inl "Unable to parse range".

Lemma ReadSetupRows_outcome_witness :
  let values := [[StringItem "x"; StringItem "1,2"]; [StringItem "y"]] in
  let r := ReadSetupRows two_rows "sheet" "inputs" in
  two_rows "sheet" ("inputs" +:+ "!A1:Z") = inr values
  ∧ (∀ rows, r = Ret (rows, None) ↔ values ≠ [] ∧ values = strings_of <$> rows)
  ∧ (∀ rows err, r = Ret (rows, Some err)
                 ↔ values = [] ∧ rows = [] ∧ err = "No data found.")
  ∧ (r = Panic ↔ ∃ row, row ∈ values ∧ OtherItem ∈ row).
Proof.
  split; [reflexivity|].
  exact (ReadSetupRows_outcome two_rows "sheet" "inputs" _ eq_refl).
Defined.

Example ReadSetupRows_two_rows :
  ReadSetupRows two_rows "sheet" "inputs" = Ret ([["x"; "1,2"]; ["y"]], None).
Proof. reflexivity. Qed.

Example ReadSetupRows_no_sheet :
  ReadSetupRows two_rows "sheet" "setup"
  = Ret ([], Some "Unable to retrieve data from sheet. Unable to parse range").
Proof. reflexivity. Qed.

End Source.

(** ** From the sheet to the input sets *)

Module Setup.

Import Comb Parser ParserFacts Source.

Lemma size_product_positive exampleSets :
  Forall (λ examples : list string, examples ≠ []) exampleSets →
  0 < size_product exampleSets.
Proof.
  induction 1 as [|examples exampleSets Hexamples _ IH]; [cbv; lia|].
  change (size_product (examples :: exampleSets))
    with (length examples * size_product exampleSets).
  destruct examples; [done|]. simpl. lia.
Qed.

Lemma ReadSetupRows_rows Get spreadsheetID setupSheetName rows :
  ReadSetupRows Get spreadsheetID setupSheetName = Ret (rows, None) → rows ≠ [].
Proof.
  intros Hread.
  destruct (Get spreadsheetID (setupSheetName +:+ "!A1:Z")) as [err|values] eqn:HGet.
  { unfold ReadSetupRows in Hread. by rewrite HGet in Hread. }
  unfold ReadSetupRows in Hread. rewrite HGet in Hread. cbv zeta in Hread.
  destruct values as [|row values].
  { by rewrite decide_False in Hread by (simpl; lia). }
  rewrite decide_True in Hread by (simpl; lia).
  destruct (rows_from_strings (row :: values) [])
    as [(stringRows & Hvalues & Hrows)|[_ Hrows]];
    rewrite Hrows in Hread; [|done].
  injection Hread as <-. by destruct stringRows.
Qed.

(** X8: The setup that [main] goes through before the first invocation: when
    [ReadSetupRows] and [GetVarsExamplesSets] both succeed there is a
    variable at least, every example set holds an example, and
    [GetInputSets] returns [s1 * ... * sn >= 1] input sets, each with one
    value per variable. *)
Theorem setup_gives_input_sets Get spreadsheetID setupSheetName
    setupRows varNames exampleSets :
  ReadSetupRows Get spreadsheetID setupSheetName = Ret (setupRows, None) →
  GetVarsExamplesSets setupRows = Ret (varNames, exampleSets, None) →
  let inputSets := GetInputSets exampleSets in
  length varNames = length setupRows
  ∧ length exampleSets = length setupRows
  ∧ 0 < length setupRows
  ∧ Forall (λ examples, examples ≠ []) exampleSets
  ∧ length inputSets = size_product exampleSets
  ∧ 0 < length inputSets
  ∧ Forall (λ inputSet, length inputSet = length varNames) inputSets.
Proof.
  intros Hread Hparse. apply ReadSetupRows_rows in Hread.
  apply GetVarsExamplesSets_success in Hparse as (Hpass & -> & ->).
  assert (Hsets : Forall (λ examples, examples ≠ []) (examples_of <$> setupRows)).
  { apply Forall_fmap. eapply Forall_impl; [exact Hpass|].
    intros row Hrow. by apply passes_spec in Hrow as (_ & _ & ?). }
  assert (Hne : examples_of <$> setupRows ≠ []) by by destruct setupRows.
  simpl. rewrite !length_fmap, (GetInputSets_row_major _ Hne), row_major_length.
  split_and!; [done|done|destruct setupRows; [done|simpl; lia]|done|done| |].
  - by apply size_product_positive.
  - apply Forall_forall. intros inputSet Hin.
    apply row_major_elem_of, in_product_length in Hin.
    by rewrite Hin, length_fmap.
Qed.

Definition two_variables (_ _ : string) : error + list (list Item) :=
  inr [[StringItem "x"; StringItem "1,2"]; [StringItem " y"; StringItem "a, b,c"]].

Lemma setup_gives_input_sets_witness :
  let setupRows := [["x"; "1,2"]; [" y"; "a, b,c"]] in
  let varNames := ["x"; "y"] in
  let exampleSets := [["1"; "2"]; ["a"; "b"; "c"]] in
  let inputSets := GetInputSets exampleSets in
  ReadSetupRows two_variables "sheet" "inputs" = Ret (setupRows, None)
  ∧ GetVarsExamplesSets setupRows = Ret (varNames, exampleSets, None)
  ∧ length varNames = length setupRows
  ∧ length exampleSets = length setupRows
  ∧ 0 < length setupRows
  ∧ Forall (λ examples, examples ≠ []) exampleSets
  ∧ length inputSets = size_product exampleSets
  ∧ 0 < length inputSets
  ∧ Forall (λ inputSet, length inputSet = length varNames) inputSets.
Proof.
  split; [reflexivity|]. split; [reflexivity|].
  exact (setup_gives_input_sets two_variables "sheet" "inputs"
           [["x"; "1,2"]; [" y"; "a, b,c"]] ["x"; "y"]
           [["1"; "2"]; ["a"; "b"; "c"]] eq_refl eq_refl).
Defined.

End Setup.

(** ** The request of one invocation *)

Module Request.

Import Invoker.

(** The value that the loop leaves under a name: the one at the last
    position of the input set that carries the name. *)
Lemma fill_inputMap_lookup varNames inputSet : ∀ i inputMap filled name,
  fill_inputMap i varNames inputSet inputMap = Ret filled →
  (∀ j value,
     inputSet !! j = Some value → varNames !! (i + j) = Some name →
     (∀ k, j < k → k < length inputSet → varNames !! (i + k) ≠ Some name) →
     filled !! name = Some value)
  ∧ ((∀ j, j < length inputSet → varNames !! (i + j) ≠ Some name) →
     filled !! name = inputMap !! name).
Proof.
  induction inputSet as [|inputItem inputSet IH];
    intros i inputMap filled name.
  - intros [= <-]. split; [|done]. intros j value Hvalue.
    by rewrite lookup_nil in Hvalue.
  - cbn [fill_inputMap].
    destruct (varNames !! i) as [varName|] eqn:Hi; [|done]. intros Hfill.
    destruct (IH _ _ _ name Hfill) as [Hlast Hnone].
    assert (Hshift : ∀ k, S i + k = i + S k) by (intros; lia).
    split.
    + intros [|j] value Hvalue Hname Hlater.
      * injection Hvalue as <-. rewrite Nat.add_0_r, Hi in Hname.
        injection Hname as ->. rewrite Hnone; [by rewrite lookup_insert_eq|].
        intros k Hk. rewrite Hshift. apply Hlater; [lia|]. simpl. lia.
      * apply (Hlast j); [done|by rewrite Hshift|].
        intros k Hjk Hk. rewrite Hshift. apply Hlater; [lia|]. simpl. lia.
    + intros Hno. rewrite Hnone.
      * apply lookup_insert_ne. intros ->. apply (Hno 0); [simpl; lia|].
        by rewrite Nat.add_0_r.
      * intros k Hk. rewrite Hshift. apply Hno. simpl. lia.
Qed.

(** X9: A name carried by several positions keeps the value of the last one:
    the values of the earlier positions do not reach the child. *)
Theorem request_keeps_last_value varNames inputSet inputMap name j value :
  fill_inputMap 0 varNames inputSet ∅ = Ret inputMap →
  inputSet !! j = Some value → varNames !! j = Some name →
  (∀ k, j < k → k < length inputSet → varNames !! k ≠ Some name) →
  inputMap !! name = Some value.
Proof.
  intros Hfill Hvalue Hname Hlater.
  by apply (proj1 (fill_inputMap_lookup _ _ _ _ _ name Hfill) j value).
Qed.

Lemma request_keeps_last_value_witness :
  let inputMap := <["x" := "2"]> (<["y" := "a"]> ∅) in
  fill_inputMap 0 ["x"; "y"; "x"] ["1"; "a"; "2"] ∅ = Ret inputMap
  ∧ ["1"; "a"; "2"] !! 2 = Some "2" ∧ ["x"; "y"; "x"] !! 2 = Some "x"
  ∧ (∀ k, 2 < k → k < length ["1"; "a"; "2"] → ["x"; "y"; "x"] !! k ≠ Some "x")
  ∧ inputMap !! "x" = Some "2".
Proof.
  assert (Hfill : fill_inputMap 0 ["x"; "y"; "x"] ["1"; "a"; "2"] ∅
                  = Ret (<["x" := "2"]> (<["y" := "a"]> ∅))).
  { vm_compute. reflexivity. }
  assert (Hlater : ∀ k, 2 < k → k < length ["1"; "a"; "2"] →
                        ["x"; "y"; "x"] !! k ≠ Some "x").
  { simpl. intros k ??. lia. }
  split; [exact Hfill|]. split; [reflexivity|]. split; [reflexivity|].
  split; [exact Hlater|].
  exact (request_keeps_last_value ["x"; "y"; "x"] ["1"; "a"; "2"] _ "x" 2 "2"
           Hfill eq_refl eq_refl Hlater).
Defined.

(** X10: Round trip: with names that are all different, reading the request
    back under the names gives the input set, value for value, and a name
    beyond the end of the input set is not in the request. *)
Theorem request_round_trip varNames inputSet :
  NoDup varNames → length inputSet ≤ length varNames →
  ∃ inputMap,
    fill_inputMap 0 varNames inputSet ∅ = Ret inputMap
    ∧ (∀ j name, varNames !! j = Some name → inputMap !! name = inputSet !! j)
    ∧ (∀ name, name ∉ varNames → inputMap !! name = None).
Proof.
  intros Hnodup Hlen.
  destruct (fill_inputMap_returns varNames inputSet 0 ∅ Hlen) as [inputMap Hfill].
  exists inputMap. split; [done|]. split.
  - intros j name Hname.
    destruct (fill_inputMap_lookup _ _ _ _ _ name Hfill) as [Hlast Hnone].
    destruct (inputSet !! j) as [value|] eqn:Hvalue.
    + apply (Hlast j value); [done..|]. intros k Hjk _ Hk.
      pose proof (NoDup_lookup _ _ _ _ Hnodup Hname Hk). lia.
    + rewrite Hnone; [done|]. intros k Hk Hname'. simpl in Hname'.
      pose proof (NoDup_lookup _ _ _ _ Hnodup Hname Hname') as ->.
      apply lookup_ge_None in Hvalue. lia.
  - intros name Hname.
    destruct (fill_inputMap_lookup _ _ _ _ _ name Hfill) as [_ Hnone].
    rewrite Hnone; [done|]. intros k _ Hk. apply Hname.
    by eapply list_elem_of_lookup_2.
Qed.

Lemma request_round_trip_witness :
  NoDup ["x"; "y"; "z"] ∧ length ["1"; "a"] ≤ length ["x"; "y"; "z"]
  ∧ ∃ inputMap,
      fill_inputMap 0 ["x"; "y"; "z"] ["1"; "a"] ∅ = Ret inputMap
      ∧ (∀ j name, ["x"; "y"; "z"] !! j = Some name
                   → inputMap !! name = ["1"; "a"] !! j)
      ∧ (∀ name, name ∉ ["x"; "y"; "z"] → inputMap !! name = None).
Proof.
  assert (Hnodup : NoDup ["x"; "y"; "z"]).
  { repeat (apply NoDup_cons_2;
              [intros Hin; repeat (apply elem_of_cons in Hin as [?|Hin]; [done|]);
               by apply elem_of_nil in Hin|]).
    apply NoDup_nil_2. }
  split; [exact Hnodup|]. split; [simpl; lia|].
  apply (request_round_trip ["x"; "y"; "z"] ["1"; "a"] Hnodup). simpl; lia.
Defined.

(** X11: [RunBlackBoxCmd] panics exactly when the input set is longer than the
    variable names, whatever the codec and the child. *)
Theorem RunBlackBoxCmd_panics json_Marshal json_Unmarshal exec
    n progPath varNames inputSet :
  RunBlackBoxCmd json_Marshal json_Unmarshal exec n progPath varNames inputSet
  = Panic
  ↔ length varNames < length inputSet.
Proof.
  assert (Hfill : ∀ inputSet' i inputMap,
            fill_inputMap i varNames inputSet' inputMap = Panic
            ↔ 0 < length inputSet' ∧ length varNames < i + length inputSet').
  { induction inputSet' as [|inputItem inputSet' IH]; intros i inputMap; simpl.
    - split; [done|lia].
    - destruct (varNames !! i) as [varName|] eqn:Hi.
      + rewrite IH. apply lookup_lt_Some in Hi. lia.
      + apply lookup_ge_None in Hi. split; [lia|done]. }
  unfold RunBlackBoxCmd. specialize (Hfill inputSet 0 ∅).
  assert (Hlen : 0 < length inputSet ∧ length varNames < 0 + length inputSet
                 ↔ length varNames < length inputSet) by lia.
  rewrite Hlen in Hfill. clear Hlen.
  destruct (fill_inputMap 0 varNames inputSet ∅) as [inputMap| |] eqn:Hrun.
  - rewrite <- Hfill. split; [|done].
    destruct (json_Marshal inputMap) as [jsonBytes [err|]]; [done|].
    unfold run_child. destruct (pipe _); [done|]. by destruct (run _).
  - by rewrite <- Hfill.
  - exfalso. clear Hfill. revert Hrun. generalize 0, (∅ : gmap string string).
    induction inputSet as [|inputItem inputSet IH]; intros i inputMap; simpl;
      [done|].
    destruct (varNames !! i); [apply IH|done].
Qed.

End Request.

(** ** More on the combinations *)

Module CombFacts.

Import Comb.

Lemma size_product_zero exampleSets :
  [] ∈ exampleSets → size_product exampleSets = 0.
Proof.
  induction exampleSets as [|examples exampleSets IH]; [by intros ?%elem_of_nil|].
  change (size_product (examples :: exampleSets))
    with (length examples * size_product exampleSets).
  intros [<-|Hin]%elem_of_cons; [done|]. rewrite IH by done. lia.
Qed.

(** X12: One variable without an example value leaves no combination at all,
    whatever the other variables offer. *)
Theorem GetInputSets_empty_set exampleSets :
  [] ∈ exampleSets → GetInputSets exampleSets = [].
Proof.
  intros Hin. assert (Hne : exampleSets ≠ []) by (by intros ->; apply elem_of_nil in Hin).
  apply length_zero_iff_nil.
  by rewrite (GetInputSets_row_major _ Hne), row_major_length, size_product_zero.
Qed.

Lemma GetInputSets_empty_set_witness :
  [] ∈ [["1"; "2"]; []; ["a"]] ∧ GetInputSets [["1"; "2"]; []; ["a"]] = [].
Proof.
  assert (Hin : [] ∈ [["1"; "2"]; ([] : list string); ["a"]]).
  { apply list_elem_of_further, list_elem_of_here. }
  split; [exact Hin|]. exact (GetInputSets_empty_set _ Hin).
Defined.

(** Each tuple followed by each value of one more set. *)
Definition extended (last : list string) (t : list string) : list (list string) :=
  map (λ v, t ++ [v]) last.

Lemma extended_cons last v t : extended last (v :: t) = map (cons v) (extended last t).
Proof. unfold extended. rewrite map_map. reflexivity. Qed.

Lemma flat_map_extended_cons last v ts :
  flat_map (extended last) (map (cons v) ts)
  = map (cons v) (flat_map (extended last) ts).
Proof.
  induction ts as [|t ts IH]; simpl; [done|].
  by rewrite IH, extended_cons, map_app.
Qed.

Lemma row_major_snoc exampleSets last :
  row_major (exampleSets ++ [last])
  = flat_map (extended last) (row_major exampleSets).
Proof.
  induction exampleSets as [|head exampleSets IH]; simpl.
  - rewrite app_nil_r. unfold extended. simpl.
    induction last as [|v last IHl]; simpl; [done|]. by rewrite IHl.
  - rewrite IH. clear IH.
    induction head as [|v head IHh]; simpl; [done|].
    by rewrite flat_map_app, IHh, flat_map_extended_cons.
Qed.

(** X13: The last variable varies fastest: with one more set at the end, every
    earlier tuple, in order, is followed by each value of the new set in
    order. *)
Theorem GetInputSets_last_fastest exampleSets last :
  exampleSets ≠ [] →
  GetInputSets (exampleSets ++ [last])
  = flat_map (λ t, map (λ v, t ++ [v]) last) (GetInputSets exampleSets).
Proof.
  intros Hne. rewrite (GetInputSets_row_major _ Hne).
  rewrite GetInputSets_row_major by (by destruct exampleSets).
  apply row_major_snoc.
Qed.

Lemma GetInputSets_last_fastest_witness :
  [["1"; "2"]] ≠ []
  ∧ GetInputSets ([["1"; "2"]] ++ [["a"; "b"]])
    = flat_map (λ t, map (λ v, t ++ [v]) ["a"; "b"]) (GetInputSets [["1"; "2"]]).
Proof.
  split; [discriminate|].
  apply (GetInputSets_last_fastest [["1"; "2"]] ["a"; "b"]). discriminate.
Defined.

End CombFacts.

(** ** More on the driver *)

Module DriverFacts.

Import Invoker Driver.

(** X14: [RecordSortedKeys] returns the field names of the record, each once,
    in increasing order of their bytes; the order in which Go visits the
    map does not show in the result. *)
Theorem RecordSortedKeys_fields output :
  Sorted String.le (RecordSortedKeys output)
  ∧ NoDup (RecordSortedKeys output)
  ∧ (∀ key, key ∈ RecordSortedKeys output ↔ is_Some (output !! key))
  ∧ length (RecordSortedKeys output) = size output
  ∧ ∀ entries, entries ≡ₚ map_to_list output →
               sorted_keys_of entries = RecordSortedKeys output.
Proof.
  split_and!.
  - apply sorted_keys_of_Sorted.
  - apply RecordSortedKeys_NoDup.
  - apply RecordSortedKeys_elem_of.
  - unfold RecordSortedKeys. rewrite sorted_keys_of_Permutation.
    by rewrite length_fmap, length_map_to_list.
  - intros entries Hperm. by apply sorted_keys_of_order.
Qed.

Lemma RecordSortedKeys_fields_witness :
  let output : gmap string string := <["sum" := "3"]> (<["product" := "2"]> ∅) in
  [("sum", "3"); ("product", "2")] ≡ₚ map_to_list output
  ∧ sorted_keys_of [("sum", "3"); ("product", "2")] = RecordSortedKeys output.
Proof.
  assert (Hperm : [("sum", "3"); ("product", "2")]
                  ≡ₚ map_to_list (<["sum" := "3"]> (<["product" := "2"]> ∅)
                                  : gmap string string)).
  { rewrite map_to_list_insert by done.
    rewrite map_to_list_insert by done.
    by rewrite map_to_list_empty. }
  split; [exact Hperm|].
  exact (proj2 (proj2 (proj2 (proj2 (RecordSortedKeys_fields _)))) _ Hperm).
Defined.

Section Runs.

Variable json_Marshal : gmap string string → bytes * option error.
Variable json_Unmarshal : bytes → gmap string string * option error.
Variable exec : nat → string → bytes → Child.
Variable progPath : string.
Variable varNames : list string.

Abbreviation invoke := (RunBlackBoxCmd json_Marshal json_Unmarshal exec).
Abbreviation explore := (RunExploration json_Marshal json_Unmarshal exec progPath varNames).
Abbreviation explore_from :=
  (RunExploration_from json_Marshal json_Unmarshal exec progPath varNames).

(** The result line of the [i]-th input set under fixed columns. *)
Definition line (columns : list string) (record : nat → gmap string string)
    (i : nat) (inputSet : list string) : Sent :=
  SentData (inputSet ++ (value_of (record i) <$> columns)).

Lemma explore_from_records inputSets : ∀ i l record,
  outputVars l ≠ [] →
  (∀ j inputSet, inputSets !! j = Some inputSet →
     invoke (i + j) progPath varNames inputSet = Ret (record (i + j), None)) →
  explore_from i inputSets l
  = ({| outputVars := outputVars l;
        sent := sent l ++ imap (λ j, line (outputVars l) record (i + j)) inputSets;
        invoked := invoked l ++ inputSets |}, Ret None).
Proof.
  induction inputSets as [|inputSet inputSets IH]; intros i l record Hvars Hok.
  - simpl. rewrite !app_nil_r. by destruct l.
  - cbn [RunExploration_from]. unfold iteration.
    pose proof (Hok 0 inputSet eq_refl) as Hrun. rewrite Nat.add_0_r in Hrun.
    rewrite Hrun. cbn [outputVars sent invoked].
    rewrite decide_False by (by destruct (outputVars l)).
    cbn [outputVars sent invoked]. rewrite resultLine_of_eq.
    rewrite (IH (S i) _ record); cbn [outputVars sent invoked]; [|done|].
    + rewrite imap_cons, <- !app_assoc. unfold line at 2. rewrite Nat.add_0_r.
      do 3 f_equal. simpl. f_equal. apply imap_ext. intros j t _. simpl.
      by replace (i + S j) with (S (i + j)) by lia.
    + intros j t Hj. specialize (Hok (S j) t Hj).
      by replace (i + S j) with (S i + j) in Hok by lia.
Qed.

End Runs.

(** X15: A run in which every invocation succeeds and the first record has a
    field: the header goes out first and once, then one line per input
    set in order, each with the values of the record of that input set
    under the sorted field names of the first record, the empty string
    for a field that the record lacks; nothing of a field that the first
    record lacks is sent. *)
Theorem RunExploration_rows json_Marshal json_Unmarshal exec progPath varNames
    inputSet inputSets record :
  (∀ i t, (inputSet :: inputSets) !! i = Some t →
     RunBlackBoxCmd json_Marshal json_Unmarshal exec i progPath varNames t
     = Ret (record i, None)) →
  record 0 ≠ ∅ →
  let columns := RecordSortedKeys (record 0) in
  RunExploration json_Marshal json_Unmarshal exec progPath varNames
    (inputSet :: inputSets)
  = ({| outputVars := columns;
        sent := SentHeader (varNames ++ columns)
                :: imap (line columns record) (inputSet :: inputSets);
        invoked := inputSet :: inputSets |}, Ret None).
Proof.
  intros Hok Hfields. unfold RunExploration.
  cbn [RunExploration_from]. unfold iteration.
  rewrite (Hok 0 inputSet eq_refl). cbn [outputVars sent invoked length].
  rewrite decide_True by done. cbn [outputVars sent invoked].
  rewrite resultLine_of_eq.
  rewrite (explore_from_records _ _ _ _ _ _ 1 _ record);
    cbn [outputVars sent invoked].
  - by rewrite imap_cons.
  - by rewrite RecordSortedKeys_nil.
  - intros j t Hj. by apply (Hok (S j)).
Qed.

(** Two invocations: the second record lacks [product] and brings [mean]. *)
Definition two_children : nat → string → bytes → Child :=
  scripted [prints (encode_object [("sum", "3"); ("product", "2")]);
            prints (encode_object [("sum", "4"); ("mean", "2")])].

Definition two_records (i : nat) : gmap string string :=
  default ∅ ([<["product" := "2"]> (<["sum" := "3"]> ∅);
              <["mean" := "2"]> (<["sum" := "4"]> ∅)] !! i).

Lemma RunExploration_rows_witness :
  (∀ i t, [["1"; "2"]; ["1"; "3"]] !! i = Some t →
     RunBlackBoxCmd flat_Marshal flat_Unmarshal two_children i "adapter" ["x"; "y"] t
     = Ret (two_records i, None))
  ∧ two_records 0 ≠ ∅
  ∧ RunExploration flat_Marshal flat_Unmarshal two_children "adapter" ["x"; "y"]
      [["1"; "2"]; ["1"; "3"]]
    = ({| outputVars := ["product"; "sum"];
          sent := [SentHeader ["x"; "y"; "product"; "sum"];
                   SentData ["1"; "2"; "2"; "3"];
                   SentData ["1"; "3"; ""; "4"]];
          invoked := [["1"; "2"]; ["1"; "3"]] |}, Ret None).
Proof.
  assert (Hok : ∀ i t, [["1"; "2"]; ["1"; "3"]] !! i = Some t →
            RunBlackBoxCmd flat_Marshal flat_Unmarshal two_children i "adapter"
              ["x"; "y"] t = Ret (two_records i, None)).
  { intros [|[|i]] t Ht; [| |done]; injection Ht as <-; vm_compute; reflexivity. }
  assert (Hfields : two_records 0 ≠ ∅).
  { intros Hempty. apply (f_equal (λ m : gmap string string, m !! "sum")) in Hempty.
    vm_compute in Hempty. discriminate. }
  split; [exact Hok|]. split; [exact Hfields|].
  rewrite (RunExploration_rows flat_Marshal flat_Unmarshal two_children
             "adapter" ["x"; "y"] ["1"; "2"] [["1"; "3"]] two_records Hok Hfields).
  vm_compute. reflexivity.
Defined.

(** X16: An invocation that never returns, or that panics, takes the whole run
    with it: the run ends the same way, the input sets after it are not
    invoked, and the rows already sent are those of the input sets before
    it. *)
Theorem RunExploration_does_not_return json_Marshal json_Unmarshal exec
    progPath varNames before inputSet after :
  (∀ i t, before !! i = Some t →
     succeeds json_Marshal json_Unmarshal exec progPath varNames i t) →
  ∃ l,
    RunExploration json_Marshal json_Unmarshal exec progPath varNames before
    = (l, Ret None)
    ∧ ∀ how, how = Blocked ∨ how = Panic →
        RunBlackBoxCmd json_Marshal json_Unmarshal exec
          (length before) progPath varNames inputSet = how →
        RunExploration json_Marshal json_Unmarshal exec progPath varNames
          (before ++ inputSet :: after)
        = ({| outputVars := outputVars l; sent := sent l;
              invoked := before ++ [inputSet] |},
           match how with Ret _ => Ret None | Panic => Panic | Blocked => Blocked end).
Proof.
  intros Hok. unfold RunExploration.
  destruct (RunExploration_from_prefix json_Marshal json_Unmarshal exec
              progPath varNames before 0
              {| outputVars := []; sent := []; invoked := [] |} Hok)
    as (l & Hrun & Hinvoked & Hrest).
  exists l. split; [done|]. intros how Hhow Hinvoke. rewrite Hrest.
  cbn [RunExploration_from]. unfold iteration. simpl. rewrite Hinvoke.
  rewrite Hinvoked. by destruct Hhow as [-> | ->].
Qed.

Lemma RunExploration_does_not_return_witness :
  let exec := scripted [prints (encode_object [("sum", "3")]); hangs] in
  (∀ i t, [["1"; "2"]] !! i = Some t →
     succeeds flat_Marshal flat_Unmarshal exec "adapter" ["x"; "y"] i t)
  ∧ ∃ l,
      RunExploration flat_Marshal flat_Unmarshal exec "adapter" ["x"; "y"]
        [["1"; "2"]] = (l, Ret None)
      ∧ ∀ how, how = Blocked ∨ how = Panic →
          RunBlackBoxCmd flat_Marshal flat_Unmarshal exec
            (length [["1"; "2"]]) "adapter" ["x"; "y"] ["1"; "3"] = how →
          RunExploration flat_Marshal flat_Unmarshal exec "adapter" ["x"; "y"]
            ([["1"; "2"]] ++ ["1"; "3"] :: [["1"; "4"]])
          = ({| outputVars := outputVars l; sent := sent l;
                invoked := [["1"; "2"]] ++ [["1"; "3"]] |},
             match how with Ret _ => Ret None | Panic => Panic | Blocked => Blocked end).
Proof.
  assert (Hok : ∀ i t, [["1"; "2"]] !! i = Some t →
            succeeds flat_Marshal flat_Unmarshal
              (scripted [prints (encode_object [("sum", "3")]); hangs])
              "adapter" ["x"; "y"] i t).
  { intros [|i] t Ht; [|done]. injection Ht as <-.
    exists (<["sum" := "3"]> ∅). vm_compute. reflexivity. }
  split; [exact Hok|].
  exact (RunExploration_does_not_return flat_Marshal flat_Unmarshal _
           "adapter" ["x"; "y"] [["1"; "2"]] ["1"; "3"] [["1"; "4"]] Hok).
Defined.

End DriverFacts.

(** ** More on the sink *)

Module SinkFacts.

Import Sink.

Lemma decimal_inj i j : decimal i = decimal j → i = j.
Proof.
  unfold decimal. intros Heq. apply DecimalZ.to_int_inj.
  assert (Hparse : ∀ z, NilZero.int_of_string (NilZero.string_of_int (Z.to_int z))
                        = Some (Z.to_int z)).
  { intros [|p|p]; [reflexivity| |]; apply NilZero.isi; simpl;
      intros [= H]; by apply DecimalPos.Unsigned.to_uint_nonnil in H. }
  apply (inj Some). by rewrite <- !Hparse, Heq.
Qed.

Lemma getAddress_inj resultSheetName i j :
  getAddress resultSheetName i = getAddress resultSheetName j → i = j.
Proof.
  unfold getAddress. intros Heq. apply decimal_inj.
  by repeat apply (inj (String.app _)) in Heq.
Qed.

(** X17: No row is written over another: in a run of fewer than [2^63] rows the
    addresses of the rows written are pairwise different. *)
Theorem RecordResults_no_overwrite Update spreadsheetID resultSheetName resultChannel :
  (Z.of_nat (length resultChannel) < 2 ^ 63)%Z →
  NoDup (written (RecordResults Update spreadsheetID resultSheetName
                    resultChannel)).*1.
Proof.
  intros Hbound.
  destruct (RecordResults_from_spec Update spreadsheetID resultSheetName
              resultChannel 0 1%Z) as (n & Hwritten & _); [done|done|].
  unfold RecordResults. rewrite Hwritten.
  apply NoDup_alt. intros i j address Hi Hj.
  rewrite list_lookup_fmap, list_lookup_imap in Hi, Hj.
  destruct (take n resultChannel !! i) as [rowi|]; [|done].
  destruct (take n resultChannel !! j) as [rowj|]; [|done].
  simpl in Hi, Hj. injection Hi as <-. injection Hj as Heq.
  apply getAddress_inj in Heq. lia.
Qed.

Lemma RecordResults_no_overwrite_witness :
  let resultChannel := [["x"; "sum"]; ["1"; "2"]; ["2"; "4"]] in
  (Z.of_nat (length resultChannel) < 2 ^ 63)%Z
  ∧ NoDup (written (RecordResults (λ _ _ _ _, None) "sheet" "result_1"
                      resultChannel)).*1.
Proof.
  split; [simpl; lia|].
  apply (RecordResults_no_overwrite (λ _ _ _ _, None) "sheet" "result_1"
           [["x"; "sum"]; ["1"; "2"]; ["2"; "4"]]).
  simpl; lia.
Defined.

End SinkFacts.

(** ** The three tasks of [main]

    From line 348 on [main] runs [RecordResults] and [RunExploration] in
    two goroutines and waits in a [select] for the value that either of
    them returns.  [resultChannel] has no buffer: a row passes from the
    explorer to the recorder in one step, when the one sends and the other
    receives.  The explorer is taken by what it does on its channels: it
    sends the rows [rows] in order and then hands [outcome] to [main].
    When [main] returns or panics the program ends and the goroutines
    with it, so that no step follows. *)

Module Coordination.

Import Sink.

Inductive Explorer :=
  | Exploring (unsent : list (list string))
  | ExplorerDone.

(** The recorder waits for a row, is inside the call of [Update] for the
    row it received, has left its loop with the error of that call, or
    has handed this error to [main]. *)
Inductive Recorder :=
  | Receiving
  | Updating (resultLine : list string)
  | Failing (resultLine : list string) (err : error)
  | RecorderDone (resultLine : list string).

(** [main] is in its [select], has returned, has panicked with an error,
    or the program has died of a panic in the explorer. *)
Inductive Main :=
  | Selecting
  | MainReturned
  | MainPanicked (err : error)
  | Crashed.

Record Process := {
  explorer : Explorer;
  recorder : Recorder;
  currentLine : Z;
  updates : nat;
  table : list (string * list string);
  mainTask : Main;
}.

Section Main.

Variable Update : nat → string → string → list string → option error.
Variables spreadsheetID resultSheetName : string.
Variable rows : list (list string).
Variable outcome : Res (option error).

Definition started : Process :=
  {| explorer := Exploring rows; recorder := Receiving; currentLine := 1;
     updates := 0; table := []; mainTask := Selecting |}.

Inductive step : Process → Process → Prop :=
  | step_row resultLine unsent line n t :
      step {| explorer := Exploring (resultLine :: unsent); recorder := Receiving;
              currentLine := line; updates := n; table := t;
              mainTask := Selecting |}
           {| explorer := Exploring unsent; recorder := Updating resultLine;
              currentLine := line; updates := n; table := t;
              mainTask := Selecting |}
  | step_update e resultLine line n t :
      Update n spreadsheetID (getAddress resultSheetName line)
        (resultRow_of resultLine) = None →
      step {| explorer := e; recorder := Updating resultLine;
              currentLine := line; updates := n; table := t;
              mainTask := Selecting |}
           {| explorer := e; recorder := Receiving;
              currentLine := int_wrap (line + 1); updates := S n;
              table := t ++ [(getAddress resultSheetName line,
                              resultRow_of resultLine)];
              mainTask := Selecting |}
  | step_update_fails e resultLine err line n t :
      Update n spreadsheetID (getAddress resultSheetName line)
        (resultRow_of resultLine) = Some err →
      step {| explorer := e; recorder := Updating resultLine;
              currentLine := line; updates := n; table := t;
              mainTask := Selecting |}
           {| explorer := e; recorder := Failing resultLine err;
              currentLine := line; updates := n; table := t;
              mainTask := Selecting |}
  | step_record_error e resultLine err line n t :
      step {| explorer := e; recorder := Failing resultLine err;
              currentLine := line; updates := n; table := t;
              mainTask := Selecting |}
           {| explorer := e; recorder := RecorderDone resultLine;
              currentLine := line; updates := n; table := t;
              mainTask := MainPanicked err |}
  | step_explored r line n t :
      outcome = Ret None →
      step {| explorer := Exploring []; recorder := r;
              currentLine := line; updates := n; table := t;
              mainTask := Selecting |}
           {| explorer := ExplorerDone; recorder := r;
              currentLine := line; updates := n; table := t;
              mainTask := MainReturned |}
  | step_explore_error err r line n t :
      outcome = Ret (Some err) →
      step {| explorer := Exploring []; recorder := r;
              currentLine := line; updates := n; table := t;
              mainTask := Selecting |}
           {| explorer := ExplorerDone; recorder := r;
              currentLine := line; updates := n; table := t;
              mainTask := MainPanicked err |}
  | step_explorer_panics r line n t :
      outcome = Panic →
      step {| explorer := Exploring []; recorder := r;
              currentLine := line; updates := n; table := t;
              mainTask := Selecting |}
           {| explorer := ExplorerDone; recorder := r;
              currentLine := line; updates := n; table := t;
              mainTask := Crashed |}.

Definition reachable (s : Process) : Prop := rtc step started s.




Hypothesis rows_bound : (Z.of_nat (length rows) + 1 < 2 ^ 63)%Z.

Lemma placed_snoc (written : list (list string)) resultLine :
  imap (placed resultSheetName) (written ++ [resultLine])
  = imap (placed resultSheetName) written
    ++ [(getAddress resultSheetName (Z.of_nat (length written + 1)), resultLine)].
Proof.
  rewrite imap_app. simpl. unfold placed at 2. by rewrite Nat.add_0_r.
Qed.




(** With every call of [Update] succeeding, the rows of a prefix can all
    be written before anything else happens. *)
Lemma prefix_written front : ∀ unsent,
  (∀ n address resultLine, Update n spreadsheetID address resultLine = None) →
  rows = front ++ unsent →
  reachable {| explorer := Exploring unsent; recorder := Receiving;
               currentLine := Z.of_nat (length front + 1);
               updates := length front;
               table := imap (placed resultSheetName) front;
               mainTask := Selecting |}.
Proof.
  induction front as [|resultLine front IH] using rev_ind; intros unsent Hok Hrows.
  - simpl in Hrows. subst unsent. apply rtc_refl.
  - rewrite <- app_assoc in Hrows. simpl in Hrows.
    specialize (IH _ Hok Hrows).
    eapply rtc_r; [eapply rtc_r; [exact IH|apply step_row]|].
    rewrite placed_snoc, length_app. simpl.
    replace (Z.of_nat (length front + 1 + 1))
      with (int_wrap (Z.of_nat (length front + 1) + 1)).
    + replace (length front + 1) with (S (length front)) at 3 by lia.
      rewrite <- (resultRow_of_eq resultLine) at 2.
      apply step_update. apply Hok.
    + rewrite int_wrap_small; [lia|]. apply (f_equal length) in Hrows.
      rewrite length_app in Hrows. simpl in Hrows. lia.
Qed.

End Main.


(** X19: [main] does not wait for the recorder: when the exploration succeeds
    and every call of [Update] succeeds, [main] can return while the last
    row is still inside its call of [Update], with only the rows before
    it in the table; it can also return with every row in the table. *)
Theorem main_returns_before_last_write Update spreadsheetID resultSheetName
    front lastLine :
  (Z.of_nat (length (front ++ [lastLine])) + 1 < 2 ^ 63)%Z →
  (∀ n address resultLine, Update n spreadsheetID address resultLine = None) →
  reachable Update spreadsheetID resultSheetName (front ++ [lastLine]) (Ret None)
    {| explorer := ExplorerDone; recorder := Updating lastLine;
       currentLine := Z.of_nat (length front + 1); updates := length front;
       table := imap (placed resultSheetName) front;
       mainTask := MainReturned |}
  ∧ reachable Update spreadsheetID resultSheetName (front ++ [lastLine]) (Ret None)
      {| explorer := ExplorerDone; recorder := Receiving;
         currentLine := Z.of_nat (length (front ++ [lastLine]) + 1);
         updates := length (front ++ [lastLine]);
         table := imap (placed resultSheetName) (front ++ [lastLine]);
         mainTask := MainReturned |}.
Proof.
  intros Hbound Hok. split.
  - eapply rtc_r; [eapply rtc_r|].
    + by apply (prefix_written Update spreadsheetID resultSheetName
                  (front ++ [lastLine]) (Ret None) Hbound front [lastLine]).
    + apply step_row.
    + by apply step_explored.
  - eapply rtc_r.
    + apply (prefix_written Update spreadsheetID resultSheetName
               (front ++ [lastLine]) (Ret None) Hbound (front ++ [lastLine]) []);
        [done|by rewrite app_nil_r].
    + by apply step_explored.
Qed.

(** A service on which every call succeeds, and a successful exploration. *)
Definition every_call_succeeds (_ : nat) (_ _ : string) (_ : list string)
  : option error := None.



Lemma main_returns_before_last_write_witness :
  (Z.of_nat (length ([["x"; "sum"]] ++ [["1"; "2"]])) + 1 < 2 ^ 63)%Z
  ∧ (∀ n address resultLine,
       every_call_succeeds n "sheet" address resultLine = None)
  ∧ reachable every_call_succeeds "sheet" "result_1"
      ([["x"; "sum"]] ++ [["1"; "2"]]) (Ret None)
      {| explorer := ExplorerDone; recorder := Updating ["1"; "2"];
         currentLine := Z.of_nat (length [["x"; "sum"]] + 1);
         updates := length [["x"; "sum"]];
         table := imap (placed "result_1") [["x"; "sum"]];
         mainTask := MainReturned |}.
Proof.
  split; [simpl; lia|]. split; [done|].
  apply (main_returns_before_last_write every_call_succeeds "sheet" "result_1"
           [["x"; "sum"]] ["1"; "2"]); [simpl; lia|done].
Defined.

End Coordination.
